(** * An arithmetic expression evaluator: lexer, recursive-descent parser,
      expression tree and interpreter of [main.cpp], embedded in Rocq.

    The embedding follows the source: [Lexer::tokenize] scans the characters
    of a [std::string], [Parser] walks a token vector with an index [idx]
    through [next] and [rewind], and [Expression::interpret] folds the tree.
    C++ exceptions are results of the [outcome] type. *)

From Stdlib Require Import Ascii String ZArith Lia Bool Arith List.
From Stdlib Require DecimalString DecimalN DecimalPos.
Import ListNotations.

Local Open Scope Z_scope.

(** ** Outcomes: a value, or a thrown exception *)

(** The three [runtime_error] messages of [Parser::parsePrimary]. *)
Inductive ParseErrorKind : Type :=
| UnexpectedEnd        (* "Unexpected end of expression" *)
| ExpectedCloseParen   (* "Expected closing parenthesis" *)
| InvalidPrimary.      (* "Invalid expression" *)

Inductive ArithmeticErrorKind : Type :=
| DivisionByZero.      (* "Division by zero" *)

(** The two exceptions of [std::stoi]. *)
Inductive StoiErrorKind : Type :=
| invalid_argument
| out_of_range.

Inductive exception : Type :=
| LexError (unexpectedChar : ascii)   (* "Unknown character in expression: c" *)
| ParseError (kind : ParseErrorKind)
| ArithmeticError (kind : ArithmeticErrorKind)
| StoiError (kind : StoiErrorKind).

(** [OutOfFuel] is not a behaviour of the program: it is what the bounded
    recursion of the parser model answers when its bound is too small.
    [evaluate_total] shows that the bounds used here are never too small. *)
Inductive outcome (A : Type) : Type :=
| Ok (a : A)
| Throw (e : exception)
| OutOfFuel.

Arguments Ok {A} a.
Arguments Throw {A} e.
Arguments OutOfFuel {A}.

Definition bind {A B : Type} (m : outcome A) (k : A -> outcome B) : outcome B :=
  match m with
  | Ok a => k a
  | Throw e => Throw e
  | OutOfFuel => OutOfFuel
  end.

Declare Scope outcome_scope.
Delimit Scope outcome_scope with outcome.
Notation "x <- m ;; k" := (bind m (fun x => k))
  (at level 61, m at next level, right associativity) : outcome_scope.
Notation "' pat <- m ;; k" := (bind m (fun x => match x with pat => k end))
  (at level 61, pat pattern, m at next level, right associativity) : outcome_scope.
Local Open Scope outcome_scope.

(** ** Characters and machine integers *)

(** A [std::string] is a list of 8-bit characters. *)
Definition chars (s : string) : list ascii := list_ascii_of_string s.

Definition code (ch : ascii) : N := N_of_ascii ch.

(** [isspace] and [isdigit] of <cctype> in the "C" locale (the program never
    calls [setlocale]): space, and \t \n \v \f \r; '0'..'9'.  Bytes above 127
    are in neither class. *)
Definition isspace (ch : ascii) : bool :=
  let n := code ch in
  (N.eqb n 32 || (N.leb 9 n && N.leb n 13))%bool.

Definition isdigit (ch : ascii) : bool :=
  let n := code ch in
  (N.leb 48 n && N.leb n 57)%bool.

(** [int] is the 32-bit two's complement integer of the usual hosts. *)
Definition INT_MIN : Z := - 2 ^ 31.
Definition INT_MAX : Z := 2 ^ 31 - 1.

Definition in_int (z : Z) : bool := ((INT_MIN <=? z) && (z <=? INT_MAX))%bool.

(** Arithmetic on [int] whose exact result does not fit: the language leaves
    it undefined and the specification leaves it to the host (section 4.3);
    the model takes the wrap-around of two's complement hardware.  The
    statements below about values are about results that fit. *)
Definition wrap_int (z : Z) : Z := (z + 2 ^ 31) mod 2 ^ 32 - 2 ^ 31.

(** ** Tokens *)

Inductive TokenType : Type :=
| INTEGER
| PLUSOPERATOR
| MINUSOPERATOR
| STAROPERATOR
| SLASHOPERATOR
| LPARENTHESIS
| RPARENTHESIS.

Definition TokenType_eqb (a b : TokenType) : bool :=
  match a, b with
  | INTEGER, INTEGER
  | PLUSOPERATOR, PLUSOPERATOR
  | MINUSOPERATOR, MINUSOPERATOR
  | STAROPERATOR, STAROPERATOR
  | SLASHOPERATOR, SLASHOPERATOR
  | LPARENTHESIS, LPARENTHESIS
  | RPARENTHESIS, RPARENTHESIS => true
  | _, _ => false
  end.

Record Token : Type := mkToken {
  getType : TokenType;
  getValue : list ascii
}.

Definition isType (tok : Token) (t : TokenType) : bool :=
  TokenType_eqb (getType tok) t.

Definition isOperator (tok : Token) : bool :=
  (isType tok PLUSOPERATOR || isType tok MINUSOPERATOR ||
   isType tok STAROPERATOR || isType tok SLASHOPERATOR)%bool.

(** ** Lexer *)

(** The [switch (ch)] of [Lexer::tokenize]: the token type of a
    one-character token, [None] for the [default] branch. *)
Definition symbol (ch : ascii) : option TokenType :=
  match ch with
  | "+"%char => Some PLUSOPERATOR
  | "-"%char => Some MINUSOPERATOR
  | "*"%char => Some STAROPERATOR
  | "/"%char => Some SLASHOPERATOR
  | "("%char => Some LPARENTHESIS
  | ")"%char => Some RPARENTHESIS
  | _ => None
  end.

(** The outer [while (i < expr.size())] loop, on the characters from [i] on,
    with the vector [tokens] built so far.  The inner [fix] is the loop
    [while (i < expr.size() && isdigit(expr[i])) num += expr[i++]] after its
    first round, which appends [ch] itself to the empty [num]. *)
Fixpoint tokenize_from (expr : list ascii) (tokens : list Token)
  : outcome (list Token) :=
  match expr with
  | [] => Ok tokens
  | ch :: rest =>
      if isspace ch then tokenize_from rest tokens
      else if isdigit ch then
        (fix digits (num : list ascii) (cs : list ascii) {struct cs}
           : outcome (list Token) :=
           match cs with
           | c :: cs' =>
               if isdigit c then digits (num ++ [c]) cs'
               else tokenize_from cs (tokens ++ [mkToken INTEGER num])
           | [] => Ok (tokens ++ [mkToken INTEGER num])
           end) [ch] rest
      else
        match symbol ch with
        | Some t => tokenize_from rest (tokens ++ [mkToken t [ch]])
        | None => Throw (LexError ch)
        end
  end.

Definition tokenize (expr : list ascii) : outcome (list Token) :=
  tokenize_from expr [].

(** ** Expression tree and interpreter *)

(** The class hierarchy under [Expression]: one constructor per concrete
    class, the two [shared_ptr] children as sub-trees. *)
Inductive Expression : Type :=
| LiteralExpression (value : Z)
| PlusBinaryOp (left right : Expression)
| MinusBinaryOp (left right : Expression)
| StarBinaryOp (left right : Expression)
| DivBinaryOp (left right : Expression).

(** [Expression::interpret].  In the first three classes the order in which
    the operands are evaluated is not fixed by the language; it cannot be
    observed, the only exception an operand can throw being the one of
    [DivBinaryOp].  [DivBinaryOp::interpret] evaluates [right] first and
    tests it before it evaluates [left]. *)
Fixpoint interpret (e : Expression) : outcome Z :=
  match e with
  | LiteralExpression value => Ok value
  | PlusBinaryOp l r =>
      a <- interpret l ;; b <- interpret r ;; Ok (wrap_int (a + b))
  | MinusBinaryOp l r =>
      a <- interpret l ;; b <- interpret r ;; Ok (wrap_int (a - b))
  | StarBinaryOp l r =>
      a <- interpret l ;; b <- interpret r ;; Ok (wrap_int (a * b))
  | DivBinaryOp l r =>
      denominator <- interpret r ;;
      if denominator =? 0 then Throw (ArithmeticError DivisionByZero)
      else a <- interpret l ;; Ok (wrap_int (Z.quot a denominator))
  end.

(** ** [std::stoi] *)

Definition digit_value (c : ascii) : Z := Z.of_N (code c) - 48.

(** The digits read by [strtol] in base 10: the longest prefix of digits. *)
Fixpoint strtol_digits (acc : Z) (cs : list ascii) : Z :=
  match cs with
  | c :: cs' =>
      if isdigit c then strtol_digits (acc * 10 + digit_value c) cs' else acc
  | [] => acc
  end.

Fixpoint skip_spaces (cs : list ascii) : list ascii :=
  match cs with
  | c :: cs' => if isspace c then skip_spaces cs' else cs
  | [] => []
  end.

(** The conversion of [std::stoi] once white space and sign are read, on
    the characters [ds] that follow: [invalid_argument] when they do not
    start with a digit, [out_of_range] when the number is not an [int]. *)
Definition stoi_number (negative : bool) (ds : list ascii) : outcome Z :=
  match ds with
  | c :: _ =>
      if isdigit c then
        let v := strtol_digits 0 ds in
        let v := if negative then - v else v in
        if in_int v then Ok v else Throw (StoiError out_of_range)
      else Throw (StoiError invalid_argument)
  | [] => Throw (StoiError invalid_argument)
  end.

(** [std::stoi(str)]: leading white space, an optional sign, then digits. *)
Definition stoi (str : list ascii) : outcome Z :=
  match skip_spaces str with
  | "-"%char :: s => stoi_number true s
  | "+"%char :: s => stoi_number false s
  | s => stoi_number false s
  end.

(** ** Parser *)

(** A member function of [Parser] reads and writes the index [idx]: it maps
    the index at its call to its result and the index at its return. *)
Definition P (A : Type) : Type := nat -> outcome (A * nat).

Definition ret {A : Type} (a : A) : P A := fun idx => Ok (a, idx).
Definition throw {A : Type} (e : exception) : P A := fun _ => Throw e.
Definition lift {A : Type} (m : outcome A) : P A :=
  fun idx => a <- m ;; Ok (a, idx).
Definition bindP {A B : Type} (m : P A) (k : A -> P B) : P B :=
  fun idx => '(a, idx') <- m idx ;; k a idx'.

Declare Scope parser_scope.
Delimit Scope parser_scope with parser.
Notation "x <- m ;; k" := (bindP m (fun x => k))
  (at level 61, m at next level, right associativity) : parser_scope.
Notation "m ;; k" := (bindP m (fun _ => k))
  (at level 61, right associativity) : parser_scope.

Section Parser.

(** The member [tokens], a reference to the vector given to the
    constructor. *)
Variable tokens : list Token.

(** [next]: [nullptr] at the end of the vector, else [tokens[idx++]]. *)
Definition next : P (option Token) := fun idx =>
  match nth_error tokens idx with
  | None => Ok (None, idx)
  | Some token => Ok (Some token, S idx)
  end.

(** [rewind]: [if (idx > 0) idx--]. *)
Definition rewind : P unit := fun idx =>
  Ok (tt, if (0 <? idx)%nat then (idx - 1)%nat else idx).

(** A loop that continues has read two tokens or more, and every nested
    call of [parseExpression] comes after a left parenthesis was read:
    [rounds] bounds the rounds of a loop and the depth of the calls. *)
Definition rounds : nat := S (length tokens).

Section Levels.

(** The call of [parseExpression] in [parsePrimary]. *)
Variable parseExpression_rec : P Expression.

Definition parsePrimary : P Expression :=
  (token <- next ;;
   match token with
   | None => throw (ParseError UnexpectedEnd)
   | Some token =>
       if isType token INTEGER then
         value <- lift (stoi (getValue token)) ;;
         ret (LiteralExpression value)
       else if isType token LPARENTHESIS then
         expr <- parseExpression_rec ;;
         closingParen <- next ;;
         match closingParen with
         | None => throw (ParseError ExpectedCloseParen)
         | Some closingParen =>
             if isType closingParen RPARENTHESIS then ret expr
             else throw (ParseError ExpectedCloseParen)
         end
       else throw (ParseError InvalidPrimary)
   end)%parser.

(** The [while (true)] loop of [parseFactor], at most [n] rounds. *)
Fixpoint parseFactor_loop (n : nat) (left : Expression) : P Expression :=
  match n with
  | O => fun _ => OutOfFuel
  | S n' =>
      (token <- next ;;
       match token with
       | None => ret left
       | Some token =>
           if isType token STAROPERATOR then
             right <- parsePrimary ;;
             parseFactor_loop n' (StarBinaryOp left right)
           else if isType token SLASHOPERATOR then
             right <- parsePrimary ;;
             parseFactor_loop n' (DivBinaryOp left right)
           else rewind ;; ret left
       end)%parser
  end.

Definition parseFactor : P Expression :=
  (left <- parsePrimary ;; parseFactor_loop rounds left)%parser.

(** The [while (true)] loop of [parseTerm], at most [n] rounds. *)
Fixpoint parseTerm_loop (n : nat) (left : Expression) : P Expression :=
  match n with
  | O => fun _ => OutOfFuel
  | S n' =>
      (token <- next ;;
       match token with
       | None => ret left
       | Some token =>
           if isType token PLUSOPERATOR then
             right <- parseFactor ;;
             parseTerm_loop n' (PlusBinaryOp left right)
           else if isType token MINUSOPERATOR then
             right <- parseFactor ;;
             parseTerm_loop n' (MinusBinaryOp left right)
           else rewind ;; ret left
       end)%parser
  end.

Definition parseTerm : P Expression :=
  (left <- parseFactor ;; parseTerm_loop rounds left)%parser.

End Levels.

(** [parseExpression] is [parseTerm]; [fuel] bounds the depth of the calls
    of [parseExpression] inside one another. *)
Fixpoint parseExpression (fuel : nat) : P Expression :=
  match fuel with
  | O => fun _ => OutOfFuel
  | S fuel' => parseTerm (parseExpression fuel')
  end.

(** [Parser::parse] on a new parser ([idx = 0]): the tree, and [idx] at
    the return. *)
Definition parse : outcome (Expression * nat) :=
  parseExpression rounds 0%nat.

End Parser.

(** ** The pipeline of [main]'s [try] block *)

Definition evaluate (expr : list ascii) : outcome Z :=
  tokens <- tokenize expr ;;
  '(expression, _) <- parse tokens ;;
  interpret expression.

(** ** Auxiliary definitions for the statements and proofs *)

(** The digits that the inner loop of [tokenize] appends to [num], and the
    characters it leaves. *)
Fixpoint take_digits (cs : list ascii) : list ascii :=
  match cs with
  | c :: cs' => if isdigit c then c :: take_digits cs' else []
  | [] => []
  end.

Fixpoint drop_digits (cs : list ascii) : list ascii :=
  match cs with
  | c :: cs' => if isdigit c then drop_digits cs' else cs
  | [] => []
  end.

Definition starts_digit (cs : list ascii) : bool :=
  match cs with
  | c :: _ => isdigit c
  | [] => false
  end.

Fixpoint ends_digit (cs : list ascii) : bool :=
  match cs with
  | [] => false
  | [c] => isdigit c
  | _ :: cs' => ends_digit cs'
  end.

(** Two pieces of text are glued when the first ends with a digit and the
    second starts with one: the only place where cutting the input cuts a
    token. *)
Definition glued (s1 s2 : list ascii) : bool :=
  (ends_digit s1 && starts_digit s2)%bool.

(** The characters the lexer accepts. *)
Definition allowed (ch : ascii) : bool :=
  (isspace ch || isdigit ch ||
   match symbol ch with Some _ => true | None => false end)%bool.

Definition not_space (ch : ascii) : bool := negb (isspace ch).

(** What the lexer puts in a token: a non-empty run of digits under
    [INTEGER], or the character of a one-character token under its type. *)
Definition lexeme (tok : Token) : bool :=
  match getType tok, getValue tok with
  | INTEGER, d :: ds => forallb isdigit (d :: ds)
  | t, [ch] =>
      match symbol ch with
      | Some t' => TokenType_eqb t t'
      | None => false
      end
  | _, _ => false
  end.

Definition rejected (ch : ascii) : bool := negb (allowed ch).

(** The token sequences that the three levels of the parser read, with the
    tree each one builds: [primary_d p e] when [parsePrimary] reads exactly
    [p] and returns [e], and so on.  A loop is described from the tree
    [left] it starts with.  [parseExpression_sound] and [complete_all] below
    show that the relation and the parser agree. *)
Inductive primary_d : list Token -> Expression -> Prop :=
| PD_integer (token : Token) (value : Z) :
    getType token = INTEGER ->
    stoi (getValue token) = Ok value ->
    primary_d [token] (LiteralExpression value)
| PD_group (open : Token) (p : list Token) (expr : Expression) (close : Token) :
    getType open = LPARENTHESIS ->
    term_d p expr ->
    getType close = RPARENTHESIS ->
    primary_d (open :: p ++ [close]) expr

with factor_loop_d : Expression -> list Token -> Expression -> Prop :=
| FL_done (left : Expression) :
    factor_loop_d left [] left
| FL_star (left : Expression) (op : Token) (p : list Token) (right : Expression)
          (q : list Token) (e : Expression) :
    getType op = STAROPERATOR ->
    primary_d p right ->
    factor_loop_d (StarBinaryOp left right) q e ->
    factor_loop_d left (op :: p ++ q) e
| FL_slash (left : Expression) (op : Token) (p : list Token) (right : Expression)
           (q : list Token) (e : Expression) :
    getType op = SLASHOPERATOR ->
    primary_d p right ->
    factor_loop_d (DivBinaryOp left right) q e ->
    factor_loop_d left (op :: p ++ q) e

with factor_d : list Token -> Expression -> Prop :=
| FD (p : list Token) (left : Expression) (q : list Token) (e : Expression) :
    primary_d p left ->
    factor_loop_d left q e ->
    factor_d (p ++ q) e

with term_loop_d : Expression -> list Token -> Expression -> Prop :=
| TL_done (left : Expression) :
    term_loop_d left [] left
| TL_plus (left : Expression) (op : Token) (p : list Token) (right : Expression)
          (q : list Token) (e : Expression) :
    getType op = PLUSOPERATOR ->
    factor_d p right ->
    term_loop_d (PlusBinaryOp left right) q e ->
    term_loop_d left (op :: p ++ q) e
| TL_minus (left : Expression) (op : Token) (p : list Token) (right : Expression)
           (q : list Token) (e : Expression) :
    getType op = MINUSOPERATOR ->
    factor_d p right ->
    term_loop_d (MinusBinaryOp left right) q e ->
    term_loop_d left (op :: p ++ q) e

with term_d : list Token -> Expression -> Prop :=
| TD (p : list Token) (left : Expression) (q : list Token) (e : Expression) :
    factor_d p left ->
    term_loop_d left q e ->
    term_d (p ++ q) e.

Scheme primary_d_mut := Minimality for primary_d Sort Prop
  with factor_loop_d_mut := Minimality for factor_loop_d Sort Prop
  with factor_d_mut := Minimality for factor_d Sort Prop
  with term_loop_d_mut := Minimality for term_loop_d Sort Prop
  with term_d_mut := Minimality for term_d Sort Prop.

Combined Scheme derivation_mutind from
  primary_d_mut, factor_loop_d_mut, factor_d_mut, term_loop_d_mut, term_d_mut.

(** The token that stops a loop: none, or one that the loop does not take. *)
Definition stops_factor (r : list Token) : bool :=
  match r with
  | [] => true
  | token :: _ =>
      negb (isType token STAROPERATOR || isType token SLASHOPERATOR)
  end.

Definition stops_term (r : list Token) : bool :=
  match r with
  | [] => true
  | token :: _ => negb (isOperator token)
  end.

(** [span tokens idx p idx']: the tokens from [idx] to [idx'] are [p]. *)
Definition span (tokens : list Token) (idx : nat) (p : list Token) (idx' : nat)
  : Prop :=
  idx' = (idx + length p)%nat /\ skipn idx tokens = p ++ skipn idx' tokens.

(** A call of [parsePrimary] on a parser that has read nothing yet. *)
Definition parsePrimary_new (tokens : list Token) : outcome (Expression * nat) :=
  parsePrimary tokens (parseExpression tokens (rounds tokens)) 0%nat.

(** [tokens] is one operand, a number or a group in parentheses, with the
    tree [e]: [parsePrimary] reads all of it and returns [e]. *)
Definition operand (tokens : list Token) (e : Expression) : Prop :=
  parsePrimary_new tokens = Ok (e, length tokens).

(** The tokens of the four operators. *)
Definition plus : Token := mkToken PLUSOPERATOR ["+"%char].
Definition minus : Token := mkToken MINUSOPERATOR ["-"%char].
Definition star : Token := mkToken STAROPERATOR ["*"%char].
Definition slash : Token := mkToken SLASHOPERATOR ["/"%char].

(** The property of claim C1: an evaluation of [expr] that returns a result
    has read every token. *)
Definition reads_all_tokens (expr : list ascii) : Prop :=
  forall tokens e idx v,
    tokenize expr = Ok tokens -> parse tokens = Ok (e, idx) ->
    interpret e = Ok v -> idx = length tokens.

(** The decimal writing of a natural number, without sign and without
    leading zeros: the [str(n)] of the round-trip property. *)
Definition str (n : N) : list ascii :=
  list_ascii_of_string (DecimalString.NilEmpty.string_of_uint (N.to_uint n)).

(** Two inputs that differ only in white space between tokens: the second
    is the first with white space added at a place that is not inside a
    number, or the other way round, any number of times. *)
Inductive same_up_to_spaces : list ascii -> list ascii -> Prop :=
| sp_insert (s1 w s2 : list ascii) :
    forallb isspace w = true -> glued s1 s2 = false ->
    same_up_to_spaces (s1 ++ s2) (s1 ++ w ++ s2)
| sp_refl (s : list ascii) :
    same_up_to_spaces s s
| sp_sym (s s' : list ascii) :
    same_up_to_spaces s s' -> same_up_to_spaces s' s
| sp_trans (s s' s'' : list ascii) :
    same_up_to_spaces s s' -> same_up_to_spaces s' s'' ->
    same_up_to_spaces s s''.

(** How an exception of the parser on a token vector is carried to the
    vector with the token [x] added at its end: "Unexpected end" becomes
    "Invalid expression" when [x] cannot start a primary, and "Expected
    closing parenthesis" stays when [x] neither continues an expression nor
    closes a group. *)
Definition carried (x : Token) (ex ex' : exception) : Prop :=
  (ex = ParseError UnexpectedEnd /\ ex' = ParseError InvalidPrimary /\
   isType x INTEGER = false /\ isType x LPARENTHESIS = false)
  \/ (ex = ParseError ExpectedCloseParen /\ ex' = ParseError ExpectedCloseParen /\
      isOperator x = false /\ isType x RPARENTHESIS = false).

(** ** Definitions for the further properties *)

(** The text of a token vector: the text of each token followed by a
    space. *)
Definition unlex (tokens : list Token) : list ascii :=
  concat (map (fun token => getValue token ++ [" "%char]) tokens).

(** A tree with a [DivBinaryOp] node; a tree whose literals are [int]s. *)
Fixpoint has_division (e : Expression) : bool :=
  match e with
  | LiteralExpression _ => false
  | PlusBinaryOp l r | MinusBinaryOp l r | StarBinaryOp l r =>
      has_division l || has_division r
  | DivBinaryOp _ _ => true
  end.

Fixpoint literals_in_int (e : Expression) : bool :=
  match e with
  | LiteralExpression value => in_int value
  | PlusBinaryOp l r | MinusBinaryOp l r | StarBinaryOp l r | DivBinaryOp l r =>
      literals_in_int l && literals_in_int r
  end.

(** The exceptions that the parser can throw on [tokens]: its own three,
    and what [std::stoi] throws on the text of an [INTEGER] token. *)
Definition parser_exception (tokens : list Token) (ex : exception) : Prop :=
  (exists kind, ex = ParseError kind)
  \/ (exists token, In token tokens /\ isType token INTEGER = true /\
                    stoi (getValue token) = Throw ex).

Definition has_slash (p : list Token) : bool :=
  existsb (fun token => isType token SLASHOPERATOR) p.

(** The tokens of the two parentheses. *)
Definition lparen : Token := mkToken LPARENTHESIS ["("%char].
Definition rparen : Token := mkToken RPARENTHESIS [")"%char].

(** One more operand of a sum: the sign in front of it, its text, its
    tokens and its tree. *)
Record addend : Type := mkAddend {
  subtracted : bool;
  addend_text : list ascii;
  addend_tokens : list Token;
  addend_tree : Expression
}.

Definition addend_ok (x : addend) : Prop :=
  tokenize (addend_text x) = Ok (addend_tokens x)
  /\ operand (addend_tokens x) (addend_tree x).

Definition sign (x : addend) : ascii :=
  if subtracted x then "-"%char else "+"%char.

(** The text [a + b - c ...] and the tree [((a + b) - c) ...]. *)
Definition sum_text (first : list ascii) (rest : list addend) : list ascii :=
  fold_left (fun s x => s ++ sign x :: addend_text x) rest first.

Definition sum_tree (first : Expression) (rest : list addend) : Expression :=
  fold_left (fun e x => if subtracted x then MinusBinaryOp e (addend_tree x)
                        else PlusBinaryOp e (addend_tree x)) rest first.

(** The tokens of a type in a vector, and the nodes of a tree that a token
    of that type makes: a literal for [INTEGER], a node of its class for an
    operator, none for a parenthesis. *)
Definition count_tokens (t : TokenType) (p : list Token) : nat :=
  length (filter (fun token => isType token t) p).

Definition one_if (b : bool) : nat := if b then 1%nat else 0%nat.

Fixpoint count_nodes (t : TokenType) (e : Expression) : nat :=
  match e with
  | LiteralExpression _ => one_if (TokenType_eqb INTEGER t)
  | PlusBinaryOp l r =>
      (one_if (TokenType_eqb PLUSOPERATOR t) + count_nodes t l + count_nodes t r)%nat
  | MinusBinaryOp l r =>
      (one_if (TokenType_eqb MINUSOPERATOR t) + count_nodes t l + count_nodes t r)%nat
  | StarBinaryOp l r =>
      (one_if (TokenType_eqb STAROPERATOR t) + count_nodes t l + count_nodes t r)%nat
  | DivBinaryOp l r =>
      (one_if (TokenType_eqb SLASHOPERATOR t) + count_nodes t l + count_nodes t r)%nat
  end.

Definition is_parenthesis (t : TokenType) : bool :=
  TokenType_eqb LPARENTHESIS t || TokenType_eqb RPARENTHESIS t.

(** * Properties *)

Local Close Scope Z_scope.

(** ** Outcomes *)

Lemma bind_Ok_inv {A B : Type} (m : outcome A) (k : A -> outcome B) (b : B) :
  bind m k = Ok b -> exists a, m = Ok a /\ k a = Ok b.
Proof.
  destruct m as [a | e | ]; simpl; intros H; try discriminate.
  exists a. split; [reflexivity | exact H].
Qed.

Lemma bind_assoc {A B C : Type} (m : outcome A) (f : A -> outcome B)
      (g : B -> outcome C) :
  bind (bind m f) g = bind m (fun a => bind (f a) g).
Proof. destruct m; reflexivity. Qed.

Lemma bind_ext {A B : Type} (m : outcome A) (f g : A -> outcome B) :
  (forall a, f a = g a) -> bind m f = bind m g.
Proof. intros H. destruct m; simpl; auto. Qed.

(** ** Character classes *)

Ltac each_char c :=
  destruct c as [[] [] [] [] [] [] [] []]; try reflexivity; try discriminate.

Lemma isdigit_not_space (c : ascii) : isdigit c = true -> isspace c = false.
Proof. each_char c. Qed.

Lemma isspace_not_digit (c : ascii) : isspace c = true -> isdigit c = false.
Proof. each_char c. Qed.

Lemma symbol_not_space (c : ascii) (t : TokenType) :
  symbol c = Some t -> isspace c = false.
Proof. each_char c. Qed.

Lemma symbol_not_digit (c : ascii) (t : TokenType) :
  symbol c = Some t -> isdigit c = false.
Proof. each_char c. Qed.

(** ** The lexer *)

Lemma take_drop_digits (cs : list ascii) :
  take_digits cs ++ drop_digits cs = cs.
Proof.
  induction cs as [ | c cs IH]; simpl; [reflexivity | ].
  destruct (isdigit c); simpl; [now rewrite IH | reflexivity].
Qed.

Lemma drop_digits_length (cs : list ascii) :
  (length (drop_digits cs) <= length cs)%nat.
Proof.
  induction cs as [ | c cs IH]; simpl; [lia | ].
  destruct (isdigit c); simpl; lia.
Qed.

Lemma take_digits_all (cs : list ascii) : forallb isdigit (take_digits cs) = true.
Proof.
  induction cs as [ | c cs IH]; simpl; [reflexivity | ].
  destruct (isdigit c) eqn:Hc; simpl; [now rewrite Hc | reflexivity].
Qed.

(** One round of the outer loop: the inner loop is folded into
    [take_digits] and [drop_digits]. *)
Lemma tokenize_from_cons (ch : ascii) (rest : list ascii) (tokens : list Token) :
  tokenize_from (ch :: rest) tokens =
  if isspace ch then tokenize_from rest tokens
  else if isdigit ch then
    tokenize_from (drop_digits rest)
                  (tokens ++ [mkToken INTEGER (ch :: take_digits rest)])
  else match symbol ch with
       | Some t => tokenize_from rest (tokens ++ [mkToken t [ch]])
       | None => Throw (LexError ch)
       end.
Proof.
  simpl. destruct (isspace ch); [reflexivity | ].
  destruct (isdigit ch); [ | reflexivity].
  change (ch :: take_digits rest) with ([ch] ++ take_digits rest).
  generalize [ch] as num.
  induction rest as [ | c cs IH]; intros num; simpl.
  - now rewrite app_nil_r.
  - destruct (isdigit c) eqn:Hc.
    + rewrite IH. now rewrite <- app_assoc.
    + rewrite app_nil_r. simpl. now rewrite Hc.
Qed.

Lemma length_induction {A : Type} (Q : list A -> Prop) :
  (forall l, (forall l', (length l' < length l)%nat -> Q l') -> Q l) ->
  forall l, Q l.
Proof.
  intros step l.
  assert (H : forall n l, (length l < n)%nat -> Q l).
  { induction n as [ | n IH]; intros l0 Hl; [lia | ].
    apply step. intros l' Hl'. apply IH. lia. }
  apply (H (S (length l))). lia.
Qed.

(** The tokens already in the vector are kept, new ones are appended. *)
Lemma tokenize_from_acc (expr : list ascii) (tokens : list Token) :
  tokenize_from expr tokens =
  ts <- tokenize_from expr [] ;; Ok (tokens ++ ts).
Proof.
  revert tokens. induction expr as [expr IH] using length_induction.
  intros tokens. destruct expr as [ | ch rest].
  - simpl. now rewrite app_nil_r.
  - rewrite !tokenize_from_cons.
    destruct (isspace ch); [apply IH; simpl; lia | ].
    assert (Hstep : forall expr' tok,
               (length expr' <= length rest)%nat ->
               tokenize_from expr' (tokens ++ [tok]) =
               ts <- tokenize_from expr' ([] ++ [tok]) ;; Ok (tokens ++ ts)).
    { intros expr' tok Hlen.
      assert (Hlt : (length expr' < length (ch :: rest))%nat) by (simpl; lia).
      rewrite (IH expr' Hlt (tokens ++ [tok])).
      rewrite (IH expr' Hlt ([] ++ [tok])).
      rewrite bind_assoc. apply bind_ext. intros ts. simpl.
      now rewrite <- app_assoc. }
    destruct (isdigit ch).
    + apply Hstep. apply drop_digits_length.
    + destruct (symbol ch); [ | reflexivity]. apply Hstep. lia.
Qed.

Lemma tokenize_from_not_OutOfFuel (expr : list ascii) (tokens : list Token) :
  tokenize_from expr tokens <> OutOfFuel.
Proof.
  revert tokens. induction expr as [expr IH] using length_induction.
  intros tokens. destruct expr as [ | ch rest]; [discriminate | ].
  rewrite tokenize_from_cons.
  destruct (isspace ch); [apply IH; simpl; lia | ].
  destruct (isdigit ch).
  - apply IH. simpl. pose proof (drop_digits_length rest). lia.
  - destruct (symbol ch); [apply IH; simpl; lia | discriminate].
Qed.

Lemma ends_digit_cons (c : ascii) (cs : list ascii) :
  cs <> [] -> ends_digit (c :: cs) = ends_digit cs.
Proof. destruct cs; [congruence | reflexivity]. Qed.

Lemma ends_digit_app (s1 s2 : list ascii) :
  s2 <> [] -> ends_digit (s1 ++ s2) = ends_digit s2.
Proof.
  intros Hs2. induction s1 as [ | c s1 IH]; [reflexivity | ].
  change ((c :: s1) ++ s2) with (c :: (s1 ++ s2)).
  rewrite ends_digit_cons; [exact IH | ].
  destruct s1; simpl; [exact Hs2 | discriminate].
Qed.

Lemma ends_digit_all (cs : list ascii) :
  cs <> [] -> forallb isdigit cs = true -> ends_digit cs = true.
Proof.
  induction cs as [ | c cs IH]; [congruence | ].
  intros _ H. simpl in H. apply andb_true_iff in H as [Hc Hcs].
  destruct cs as [ | d cs]; [exact Hc | ].
  rewrite ends_digit_cons by discriminate. apply IH; [discriminate | exact Hcs].
Qed.

Lemma take_digits_app (s1 s2 : list ascii) :
  drop_digits s1 <> [] -> take_digits (s1 ++ s2) = take_digits s1.
Proof.
  induction s1 as [ | c s1 IH]; simpl; [congruence | ].
  destruct (isdigit c); [ | reflexivity].
  intros H. now rewrite IH.
Qed.

Lemma drop_digits_app (s1 s2 : list ascii) :
  drop_digits s1 <> [] -> drop_digits (s1 ++ s2) = drop_digits s1 ++ s2.
Proof.
  induction s1 as [ | c s1 IH]; simpl; [congruence | ].
  destruct (isdigit c); [exact IH | reflexivity].
Qed.

Lemma take_digits_app_all (s1 s2 : list ascii) :
  drop_digits s1 = [] -> starts_digit s2 = false ->
  take_digits (s1 ++ s2) = s1 /\ drop_digits (s1 ++ s2) = s2.
Proof.
  intros H1 H2. induction s1 as [ | c s1 IH]; simpl.
  - destruct s2 as [ | d s2]; [now split | ]. simpl in *. now rewrite H2.
  - simpl in H1. destruct (isdigit c); [ | discriminate].
    destruct (IH H1) as [-> ->]. now split.
Qed.

(** The input can be cut wherever the cut does not fall inside a number:
    the lexer of the whole is the lexer of the first piece followed by the
    lexer of the second. *)
Lemma tokenize_from_app (s1 s2 : list ascii) (tokens : list Token) :
  glued s1 s2 = false ->
  tokenize_from (s1 ++ s2) tokens =
  tokens' <- tokenize_from s1 tokens ;; tokenize_from s2 tokens'.
Proof.
  revert tokens. induction s1 as [s1 IH] using length_induction.
  intros tokens Hglue. destruct s1 as [ | ch rest]; [reflexivity | ].
  assert (Hrest : glued rest s2 = false).
  { destruct rest as [ | d rest]; [reflexivity | ].
    unfold glued in *. now rewrite ends_digit_cons in Hglue by discriminate. }
  change ((ch :: rest) ++ s2) with (ch :: (rest ++ s2)).
  rewrite !tokenize_from_cons.
  destruct (isspace ch); [apply IH; [simpl; lia | exact Hrest] | ].
  destruct (isdigit ch) eqn:Hch.
  - destruct (drop_digits rest) as [ | c rest'] eqn:Hdrop.
    + assert (Hall : forallb isdigit (ch :: rest) = true).
      { simpl. rewrite Hch. simpl.
        rewrite <- (take_drop_digits rest), Hdrop, List.app_nil_r.
        apply take_digits_all. }
      unfold glued in Hglue.
      rewrite (ends_digit_all (ch :: rest)) in Hglue by (discriminate || exact Hall).
      simpl in Hglue.
      destruct (take_digits_app_all rest s2 Hdrop Hglue) as [-> ->].
      assert (Htake : take_digits rest = rest).
      { pose proof (take_drop_digits rest) as E.
        now rewrite Hdrop, List.app_nil_r in E. }
      rewrite Htake. reflexivity.
    + rewrite take_digits_app, drop_digits_app by (rewrite Hdrop; discriminate).
      rewrite Hdrop. apply IH.
      * pose proof (drop_digits_length rest) as Hlen.
        rewrite Hdrop in Hlen. simpl in *. lia.
      * unfold glued in *.
        rewrite <- (take_drop_digits rest), Hdrop in Hrest.
        rewrite ends_digit_app in Hrest by discriminate.
        exact Hrest.
  - destruct (symbol ch); [ | reflexivity].
    apply IH; [simpl; lia | exact Hrest].
Qed.

Lemma tokenize_app (s1 s2 : list ascii) :
  glued s1 s2 = false ->
  tokenize (s1 ++ s2) =
  t1 <- tokenize s1 ;; t2 <- tokenize s2 ;; Ok (t1 ++ t2).
Proof.
  intros Hglue. unfold tokenize.
  rewrite tokenize_from_app by exact Hglue.
  apply bind_ext. intros t1. apply tokenize_from_acc.
Qed.

(** White space leaves the token vector as it is. *)
Lemma tokenize_from_spaces (w : list ascii) (tokens : list Token) :
  forallb isspace w = true -> tokenize_from w tokens = Ok tokens.
Proof.
  induction w as [ | c w IH]; [reflexivity | ].
  intros H. simpl in H. apply andb_true_iff in H as [Hc Hw].
  rewrite tokenize_from_cons, Hc. exact (IH Hw).
Qed.

(** A run of digits is one [INTEGER] token. *)
Lemma tokenize_digits (ds : list ascii) :
  ds <> [] -> forallb isdigit ds = true ->
  tokenize ds = Ok [mkToken INTEGER ds].
Proof.
  destruct ds as [ | d ds]; [congruence | ].
  intros _ H. simpl in H. apply andb_true_iff in H as [Hd Hds].
  unfold tokenize. rewrite tokenize_from_cons.
  rewrite (isdigit_not_space d Hd), Hd.
  assert (Hdrop : drop_digits ds = []).
  { clear Hd. induction ds as [ | c ds IH]; [reflexivity | ].
    simpl in *. apply andb_true_iff in Hds as [-> Hds]. exact (IH Hds). }
  assert (Htake : take_digits ds = ds).
  { pose proof (take_drop_digits ds) as E.
    now rewrite Hdrop, List.app_nil_r in E. }
  rewrite Hdrop, Htake. reflexivity.
Qed.

(** A one-character token. *)
Lemma tokenize_symbol (ch : ascii) (t : TokenType) :
  symbol ch = Some t -> tokenize [ch] = Ok [mkToken t [ch]].
Proof.
  intros H. unfold tokenize. rewrite tokenize_from_cons.
  now rewrite (symbol_not_space ch t H), (symbol_not_digit ch t H), H.
Qed.

Lemma glued_symbol_r (s1 s2 : list ascii) (ch : ascii) (t : TokenType) :
  symbol ch = Some t -> glued s1 (ch :: s2) = false.
Proof.
  intros H. unfold glued. simpl.
  rewrite (symbol_not_digit ch t H). apply andb_false_r.
Qed.

(** Text around a one-character token is lexed piece by piece. *)
Lemma tokenize_around_symbol (s1 s2 : list ascii) (ch : ascii) (t : TokenType)
      (t1 t2 : list Token) :
  symbol ch = Some t -> tokenize s1 = Ok t1 -> tokenize s2 = Ok t2 ->
  tokenize (s1 ++ ch :: s2) = Ok (t1 ++ mkToken t [ch] :: t2).
Proof.
  intros Hch H1 H2.
  rewrite tokenize_app by (eapply glued_symbol_r; exact Hch).
  rewrite H1. simpl.
  change (ch :: s2) with ([ch] ++ s2).
  rewrite tokenize_app.
  - rewrite (tokenize_symbol ch t Hch), H2. reflexivity.
  - unfold glued. simpl. now rewrite (symbol_not_digit ch t Hch).
Qed.

Lemma TokenType_eqb_refl (t : TokenType) : TokenType_eqb t t = true.
Proof. destruct t; reflexivity. Qed.

Lemma TokenType_eqb_eq (a b : TokenType) : TokenType_eqb a b = true <-> a = b.
Proof. split; [destruct a, b; (reflexivity || discriminate) | intros ->; apply TokenType_eqb_refl]. Qed.

Lemma lexeme_symbol (ch : ascii) (t : TokenType) :
  symbol ch = Some t -> lexeme (mkToken t [ch]) = true.
Proof.
  intros H. unfold lexeme. simpl. rewrite H.
  destruct t; try reflexivity.
  exfalso. revert H.
  destruct ch as [[] [] [] [] [] [] [] []]; simpl; discriminate.
Qed.

Lemma filter_not_space_digits (ds : list ascii) :
  forallb isdigit ds = true -> filter not_space ds = ds.
Proof.
  induction ds as [ | d ds IH]; [reflexivity | ].
  simpl. intros H. apply andb_true_iff in H as [Hd Hds].
  unfold not_space at 1. rewrite (isdigit_not_space d Hd). simpl.
  now rewrite IH.
Qed.

(** The texts of the tokens, in the order of the vector, are the input
    without its white space; every token is a lexeme. *)
Lemma tokenize_from_text (expr : list ascii) (tokens ts : list Token) :
  tokenize_from expr tokens = Ok ts ->
  concat (map getValue ts) =
    concat (map getValue tokens) ++ filter not_space expr
  /\ (forallb lexeme tokens = true -> forallb lexeme ts = true).
Proof.
  revert tokens. induction expr as [expr IH] using length_induction.
  intros tokens. destruct expr as [ | ch rest].
  - intros [= <-]. simpl. now rewrite List.app_nil_r.
  - rewrite tokenize_from_cons.
    destruct (isspace ch) eqn:Hsp.
    + intros H. apply IH in H; [ | simpl; lia].
      simpl. unfold not_space at 1. rewrite Hsp. exact H.
    + destruct (isdigit ch) eqn:Hd.
      * intros H. apply IH in H.
        2:{ simpl. pose proof (drop_digits_length rest). lia. }
        destruct H as [Htext Hlex]. split.
        -- assert (Hf : filter not_space rest =
                        take_digits rest ++ filter not_space (drop_digits rest)).
           { rewrite <- (take_drop_digits rest) at 1.
             rewrite filter_app.
             now rewrite filter_not_space_digits by apply take_digits_all. }
           rewrite Htext, map_app, concat_app. simpl.
           unfold not_space at 2. rewrite Hsp. simpl.
           rewrite Hf, List.app_nil_r, <- !List.app_assoc. reflexivity.
        -- intros Hacc. apply Hlex. rewrite forallb_app, Hacc. simpl.
           unfold lexeme. simpl. rewrite Hd, take_digits_all. reflexivity.
      * destruct (symbol ch) as [t | ] eqn:Hsym; [ | discriminate].
        intros H. apply IH in H; [ | simpl; lia].
        destruct H as [Htext Hlex]. split.
        -- rewrite Htext, map_app, concat_app. simpl.
           unfold not_space at 2. rewrite Hsp. simpl.
           rewrite <- !List.app_assoc. reflexivity.
        -- intros Hacc. apply Hlex. rewrite forallb_app, Hacc. simpl.
           now rewrite (lexeme_symbol ch t Hsym).
Qed.

(** On accepted characters only, the lexer returns a token vector. *)
Lemma tokenize_from_allowed (expr : list ascii) (tokens : list Token) :
  forallb allowed expr = true -> exists ts, tokenize_from expr tokens = Ok ts.
Proof.
  revert tokens. induction expr as [expr IH] using length_induction.
  intros tokens Hall. destruct expr as [ | ch rest]; [now exists tokens | ].
  simpl in Hall. apply andb_true_iff in Hall as [Hch Hrest].
  rewrite tokenize_from_cons.
  destruct (isspace ch) eqn:Hsp; [apply IH; [simpl; lia | exact Hrest] | ].
  destruct (isdigit ch) eqn:Hd.
  - apply IH.
    + simpl. pose proof (drop_digits_length rest). lia.
    + rewrite <- (take_drop_digits rest), forallb_app in Hrest.
      now apply andb_true_iff in Hrest.
  - unfold allowed in Hch. rewrite Hsp, Hd in Hch. simpl in Hch.
    destruct (symbol ch); [ | discriminate].
    apply IH; [simpl; lia | exact Hrest].
Qed.

(** The first character that is not accepted, with what precedes it. *)
Lemma find_first_split {A : Type} (f : A -> bool) (l : list A) (x : A) :
  find f l = Some x ->
  exists pre post, l = pre ++ x :: post /\
                   forallb (fun a => negb (f a)) pre = true /\ f x = true.
Proof.
  induction l as [ | a l IH]; simpl; [discriminate | ].
  destruct (f a) eqn:Ha.
  - intros [= <-]. exists [], l. now repeat split.
  - intros H. destruct (IH H) as (pre & post & -> & Hpre & Hx).
    exists (a :: pre), post. simpl. rewrite Ha, Hpre. now repeat split.
Qed.

Lemma find_none_forallb {A : Type} (f : A -> bool) (l : list A) :
  find f l = None -> forallb (fun a => negb (f a)) l = true.
Proof.
  induction l as [ | a l IH]; simpl; [reflexivity | ].
  destruct (f a); [discriminate | exact IH].
Qed.

Lemma forallb_not_rejected (l : list ascii) :
  forallb (fun a => negb (rejected a)) l = forallb allowed l.
Proof.
  induction l as [ | a l IH]; simpl; [reflexivity | ].
  unfold rejected at 1. now rewrite negb_involutive, IH.
Qed.

Lemma tokenize_rejected (pre post : list ascii) (ch : ascii) :
  forallb allowed pre = true -> allowed ch = false ->
  tokenize (pre ++ ch :: post) = Throw (LexError ch).
Proof.
  intros Hpre Hch. unfold tokenize.
  unfold allowed in Hch.
  apply orb_false_iff in Hch as [Hch Hsym].
  apply orb_false_iff in Hch as [Hsp Hd].
  rewrite tokenize_from_app.
  2:{ unfold glued. simpl. rewrite Hd. apply andb_false_r. }
  destruct (tokenize_from_allowed pre [] Hpre) as [ts ->]. cbn [bind].
  rewrite tokenize_from_cons, Hsp, Hd.
  destruct (symbol ch); [discriminate | reflexivity].
Qed.

(** ** The parser: reading the token vector *)

Lemma isType_true (token : Token) (t : TokenType) :
  isType token t = true <-> getType token = t.
Proof. apply TokenType_eqb_eq. Qed.

Lemma skipn_nth_error {A : Type} (l : list A) (idx : nat) :
  match nth_error l idx with
  | Some a => skipn idx l = a :: skipn (S idx) l
  | None => skipn idx l = []
  end.
Proof.
  revert idx. induction l as [ | a l IH]; intros [ | idx]; simpl; try reflexivity.
  apply IH.
Qed.

Lemma skipn_cons_nth_error {A : Type} (l : list A) (idx : nat) (a : A) (r : list A) :
  skipn idx l = a :: r -> nth_error l idx = Some a /\ skipn (S idx) l = r.
Proof.
  intros H. pose proof (skipn_nth_error l idx) as Hn.
  destruct (nth_error l idx) as [b | ]; rewrite H in Hn; [ | discriminate].
  injection Hn as -> ->. now split.
Qed.

Lemma skipn_nil_nth_error {A : Type} (l : list A) (idx : nat) :
  skipn idx l = [] -> nth_error l idx = None.
Proof.
  intros H. pose proof (skipn_nth_error l idx) as Hn.
  destruct (nth_error l idx) as [b | ]; [ | reflexivity].
  rewrite H in Hn. discriminate.
Qed.

Lemma skipn_app_skipn {A : Type} (l : list A) (idx : nat) (p r : list A) :
  skipn idx l = p ++ r -> skipn (idx + length p) l = r.
Proof.
  revert idx. induction p as [ | a p IH]; intros idx H; simpl in *.
  - now rewrite Nat.add_0_r.
  - apply skipn_cons_nth_error in H as [_ H].
    rewrite <- Nat.add_succ_comm. exact (IH _ H).
Qed.

Lemma span_nil (tokens : list Token) (idx : nat) : span tokens idx [] idx.
Proof. split; [now rewrite Nat.add_0_r | reflexivity]. Qed.

Lemma span_one (tokens : list Token) (idx : nat) (token : Token) :
  nth_error tokens idx = Some token -> span tokens idx [token] (S idx).
Proof.
  intros H. split; [simpl; lia | ].
  pose proof (skipn_nth_error tokens idx) as Hn. now rewrite H in Hn.
Qed.

Lemma span_app (tokens : list Token) (i j k : nat) (p q : list Token) :
  span tokens i p j -> span tokens j q k -> span tokens i (p ++ q) k.
Proof.
  intros [-> Hp] [-> Hq]. split.
  - rewrite length_app. lia.
  - rewrite Hp, Hq. now rewrite List.app_assoc.
Qed.

Lemma span_cons (tokens : list Token) (i k : nat) (token : Token) (q : list Token) :
  nth_error tokens i = Some token -> span tokens (S i) q k ->
  span tokens i (token :: q) k.
Proof.
  intros H Hq. apply (span_app tokens i (S i) k [token] q); [ | exact Hq].
  now apply span_one.
Qed.

(** [next] and [rewind], by cases. *)
Lemma next_Some (tokens : list Token) (idx : nat) (token : Token) :
  nth_error tokens idx = Some token -> next tokens idx = Ok (Some token, S idx).
Proof. intros H. unfold next. now rewrite H. Qed.

Lemma next_None (tokens : list Token) (idx : nat) :
  nth_error tokens idx = None -> next tokens idx = Ok (None, idx).
Proof. intros H. unfold next. now rewrite H. Qed.

Lemma rewind_S (idx : nat) : rewind (S idx) = Ok (tt, idx).
Proof. unfold rewind. simpl. now rewrite Nat.sub_0_r. Qed.

Lemma bindP_Ok_inv {A B : Type} (m : P A) (k : A -> P B) (idx idx'' : nat) (b : B) :
  bindP m k idx = Ok (b, idx'') ->
  exists a idx', m idx = Ok (a, idx') /\ k a idx' = Ok (b, idx'').
Proof.
  unfold bindP. intros H. apply bind_Ok_inv in H as [[a idx'] [H1 H2]].
  now exists a, idx'.
Qed.

Lemma bindP_Ok {A B : Type} (m : P A) (k : A -> P B) (idx idx' : nat) (a : A) :
  m idx = Ok (a, idx') -> bindP m k idx = k a idx'.
Proof. unfold bindP. now intros ->. Qed.

(** ** The parser reads derivations (soundness) *)

Lemma stops_factor_nth (tokens : list Token) (idx : nat) :
  match nth_error tokens idx with
  | None => True
  | Some token =>
      isType token STAROPERATOR = false -> isType token SLASHOPERATOR = false ->
      stops_factor (skipn idx tokens) = true
  end.
Proof.
  pose proof (skipn_nth_error tokens idx) as Hn.
  destruct (nth_error tokens idx) as [token | ]; [ | exact I].
  intros H1 H2. rewrite Hn. simpl. now rewrite H1, H2.
Qed.

Section Levels_sound.

Variable tokens : list Token.
Variable rec : P Expression.

Hypothesis rec_sound : forall idx e idx',
  rec idx = Ok (e, idx') ->
  exists p, term_d p e /\ span tokens idx p idx' /\
            stops_term (skipn idx' tokens) = true.

Lemma parsePrimary_sound (idx : nat) (e : Expression) (idx' : nat) :
  parsePrimary tokens rec idx = Ok (e, idx') ->
  exists p, primary_d p e /\ span tokens idx p idx'.
Proof.
  unfold parsePrimary. intros H.
  apply bindP_Ok_inv in H as (token & i1 & Hnext & H).
  unfold next in Hnext.
  destruct (nth_error tokens idx) as [tok | ] eqn:Hnth;
    injection Hnext as <- <-; [ | discriminate].
  destruct (isType tok INTEGER) eqn:Hint.
  - apply bindP_Ok_inv in H as (value & i2 & Hstoi & H).
    unfold lift in Hstoi. apply bind_Ok_inv in Hstoi as (v & Hstoi & [= <- <-]).
    injection H as <- <-.
    exists [tok]. split.
    + apply PD_integer; [now apply isType_true | exact Hstoi].
    + now apply span_one.
  - destruct (isType tok LPARENTHESIS) eqn:Hopen; [ | discriminate].
    apply bindP_Ok_inv in H as (expr & i2 & Hrec & H).
    apply bindP_Ok_inv in H as (closing & i3 & Hnext & H).
    unfold next in Hnext.
    destruct (nth_error tokens i2) as [close | ] eqn:Hclose;
      injection Hnext as <- <-; [ | discriminate].
    destruct (isType close RPARENTHESIS) eqn:Hrp; [ | discriminate].
    injection H as <- <-.
    destruct (rec_sound _ _ _ Hrec) as (p & Hp & Hspan & _).
    exists (tok :: p ++ [close]). split.
    + apply PD_group; [now apply isType_true | exact Hp | now apply isType_true].
    + apply span_cons; [exact Hnth | ].
      apply (span_app tokens (S idx) i2 (S i2)); [exact Hspan | now apply span_one].
Qed.

Lemma parseFactor_loop_sound (n : nat) :
  forall (left : Expression) (idx : nat) (e : Expression) (idx' : nat),
  parseFactor_loop tokens rec n left idx = Ok (e, idx') ->
  exists q, factor_loop_d left q e /\ span tokens idx q idx' /\
            stops_factor (skipn idx' tokens) = true.
Proof.
  induction n as [ | n IH]; intros left idx e idx' H; [discriminate | ].
  simpl in H.
  apply bindP_Ok_inv in H as (token & i1 & Hnext & H).
  unfold next in Hnext.
  pose proof (stops_factor_nth tokens idx) as Hstop.
  pose proof (skipn_nil_nth_error tokens idx) as Hend.
  destruct (nth_error tokens idx) as [op | ] eqn:Hnth; injection Hnext as <- <-.
  - destruct (isType op STAROPERATOR) eqn:Hstar.
    + apply bindP_Ok_inv in H as (right & i2 & Hprim & H).
      apply parsePrimary_sound in Hprim as (p & Hp & Hspan).
      apply IH in H as (q & Hq & Hspanq & Hstopq).
      exists (op :: p ++ q). split; [ | split; [ | exact Hstopq]].
      * eapply FL_star; [now apply isType_true | exact Hp | exact Hq].
      * apply span_cons; [exact Hnth | ].
        exact (span_app tokens _ _ _ _ _ Hspan Hspanq).
    + destruct (isType op SLASHOPERATOR) eqn:Hslash.
      * apply bindP_Ok_inv in H as (right & i2 & Hprim & H).
        apply parsePrimary_sound in Hprim as (p & Hp & Hspan).
        apply IH in H as (q & Hq & Hspanq & Hstopq).
        exists (op :: p ++ q). split; [ | split; [ | exact Hstopq]].
        -- eapply FL_slash; [now apply isType_true | exact Hp | exact Hq].
        -- apply span_cons; [exact Hnth | ].
           exact (span_app tokens _ _ _ _ _ Hspan Hspanq).
      * apply bindP_Ok_inv in H as (u & i2 & Hrew & H).
        rewrite rewind_S in Hrew. injection Hrew as <- <-.
        injection H as <- <-.
        exists []. split; [apply FL_done | ]. split; [apply span_nil | ].
        now apply Hstop.
  - injection H as <- <-.
    exists []. split; [apply FL_done | ]. split; [apply span_nil | ].
    pose proof (skipn_nth_error tokens idx) as Hn. rewrite Hnth in Hn.
    now rewrite Hn.
Qed.

Lemma parseFactor_sound (idx : nat) (e : Expression) (idx' : nat) :
  parseFactor tokens rec idx = Ok (e, idx') ->
  exists p, factor_d p e /\ span tokens idx p idx' /\
            stops_factor (skipn idx' tokens) = true.
Proof.
  unfold parseFactor. intros H.
  apply bindP_Ok_inv in H as (left & i1 & Hprim & H).
  apply parsePrimary_sound in Hprim as (p & Hp & Hspan).
  apply parseFactor_loop_sound in H as (q & Hq & Hspanq & Hstop).
  exists (p ++ q). split; [exact (FD _ _ _ _ Hp Hq) | ].
  split; [exact (span_app tokens _ _ _ _ _ Hspan Hspanq) | exact Hstop].
Qed.

Lemma stops_term_nth (idx : nat) (token : Token) :
  nth_error tokens idx = Some token ->
  stops_factor (skipn idx tokens) = true ->
  isType token PLUSOPERATOR = false -> isType token MINUSOPERATOR = false ->
  stops_term (skipn idx tokens) = true.
Proof.
  intros Hnth Hstop Hplus Hminus.
  pose proof (skipn_nth_error tokens idx) as Hn. rewrite Hnth in Hn.
  rewrite Hn in *. simpl in *. unfold isOperator.
  rewrite Hplus, Hminus. exact Hstop.
Qed.

Lemma parseTerm_loop_sound (n : nat) :
  forall (left : Expression) (idx : nat) (e : Expression) (idx' : nat),
  parseTerm_loop tokens rec n left idx = Ok (e, idx') ->
  stops_factor (skipn idx tokens) = true ->
  exists q, term_loop_d left q e /\ span tokens idx q idx' /\
            stops_term (skipn idx' tokens) = true.
Proof.
  induction n as [ | n IH]; intros left idx e idx' H Hin; [discriminate | ].
  simpl in H.
  apply bindP_Ok_inv in H as (token & i1 & Hnext & H).
  unfold next in Hnext.
  destruct (nth_error tokens idx) as [op | ] eqn:Hnth; injection Hnext as <- <-.
  - destruct (isType op PLUSOPERATOR) eqn:Hplus.
    + apply bindP_Ok_inv in H as (right & i2 & Hfac & H).
      apply parseFactor_sound in Hfac as (p & Hp & Hspan & Hstop).
      apply IH in H as (q & Hq & Hspanq & Hstopq); [ | exact Hstop].
      exists (op :: p ++ q). split; [ | split; [ | exact Hstopq]].
      * eapply TL_plus; [now apply isType_true | exact Hp | exact Hq].
      * apply span_cons; [exact Hnth | ].
        exact (span_app tokens _ _ _ _ _ Hspan Hspanq).
    + destruct (isType op MINUSOPERATOR) eqn:Hminus.
      * apply bindP_Ok_inv in H as (right & i2 & Hfac & H).
        apply parseFactor_sound in Hfac as (p & Hp & Hspan & Hstop).
        apply IH in H as (q & Hq & Hspanq & Hstopq); [ | exact Hstop].
        exists (op :: p ++ q). split; [ | split; [ | exact Hstopq]].
        -- eapply TL_minus; [now apply isType_true | exact Hp | exact Hq].
        -- apply span_cons; [exact Hnth | ].
           exact (span_app tokens _ _ _ _ _ Hspan Hspanq).
      * apply bindP_Ok_inv in H as (u & i2 & Hrew & H).
        rewrite rewind_S in Hrew. injection Hrew as <- <-.
        injection H as <- <-.
        exists []. split; [apply TL_done | ]. split; [apply span_nil | ].
        now apply (stops_term_nth idx op).
  - injection H as <- <-.
    exists []. split; [apply TL_done | ]. split; [apply span_nil | ].
    pose proof (skipn_nth_error tokens idx) as Hn. rewrite Hnth in Hn.
    now rewrite Hn.
Qed.

Lemma parseTerm_sound (idx : nat) (e : Expression) (idx' : nat) :
  parseTerm tokens rec idx = Ok (e, idx') ->
  exists p, term_d p e /\ span tokens idx p idx' /\
            stops_term (skipn idx' tokens) = true.
Proof.
  unfold parseTerm. intros H.
  apply bindP_Ok_inv in H as (left & i1 & Hfac & H).
  apply parseFactor_sound in Hfac as (p & Hp & Hspan & Hstop).
  apply parseTerm_loop_sound in H as (q & Hq & Hspanq & Hstopq); [ | exact Hstop].
  exists (p ++ q). split; [exact (TD _ _ _ _ Hp Hq) | ].
  split; [exact (span_app tokens _ _ _ _ _ Hspan Hspanq) | exact Hstopq].
Qed.

End Levels_sound.

(** Whatever [parseExpression] returns is the tree of a derivation of the
    tokens it has read, and it stops in front of a token that is not an
    operator, or at the end. *)
Lemma parseExpression_sound (tokens : list Token) (fuel : nat) :
  forall (idx : nat) (e : Expression) (idx' : nat),
  parseExpression tokens fuel idx = Ok (e, idx') ->
  exists p, term_d p e /\ span tokens idx p idx' /\
            stops_term (skipn idx' tokens) = true.
Proof.
  induction fuel as [ | fuel IH]; intros idx e idx' H; [discriminate | ].
  simpl in H. exact (parseTerm_sound tokens _ IH idx e idx' H).
Qed.

(** ** The parser reads every derivation (completeness) *)

Lemma isType_of_getType (token : Token) (t t' : TokenType) :
  getType token = t -> isType token t' = TokenType_eqb t t'.
Proof. intros <-. reflexivity. Qed.

Lemma stops_term_factor (r : list Token) :
  stops_term r = true -> stops_factor r = true.
Proof.
  destruct r as [ | token r]; [reflexivity | ]. simpl. unfold isOperator.
  destruct (isType token PLUSOPERATOR), (isType token MINUSOPERATOR),
    (isType token STAROPERATOR), (isType token SLASHOPERATOR);
    simpl; congruence.
Qed.

Lemma term_loop_d_stops (left : Expression) (q : list Token) (e : Expression)
      (r : list Token) :
  term_loop_d left q e -> stops_term r = true -> stops_factor (q ++ r) = true.
Proof.
  intros Hq Hr. destruct Hq as [left | left op p right q e Hop _ _ | left op p right q e Hop _ _].
  - now apply stops_term_factor.
  - simpl. now rewrite !(isType_of_getType op _ _ Hop).
  - simpl. now rewrite !(isType_of_getType op _ _ Hop).
Qed.

Lemma skipn_app_length (tokens : list Token) (idx : nat) (p r : list Token) :
  skipn idx tokens = p ++ r -> (length p <= length tokens)%nat.
Proof.
  intros H. apply (f_equal (@length Token)) in H.
  rewrite length_skipn, length_app in H. lia.
Qed.

(** Run the first call of a sequence, given its result. *)
Ltac run H := unfold bindP at 1; rewrite H; cbn [bind].

Section Complete.

Variable tokens : list Token.

Lemma next_of_skipn (idx : nat) (token : Token) (r : list Token) :
  skipn idx tokens = token :: r ->
  next tokens idx = Ok (Some token, S idx) /\ skipn (S idx) tokens = r.
Proof.
  intros H. apply skipn_cons_nth_error in H as [Hnth Hr].
  split; [now apply next_Some | exact Hr].
Qed.

Lemma loop_stop_factor (rec : P Expression) (n : nat) (left : Expression)
      (idx : nat) (r : list Token) :
  skipn idx tokens = r -> stops_factor r = true ->
  parseFactor_loop tokens rec (S n) left idx = Ok (left, idx).
Proof.
  intros Hr Hstop. cbn [parseFactor_loop].
  destruct r as [ | token r].
  - run (next_None tokens idx (skipn_nil_nth_error tokens idx Hr)). reflexivity.
  - destruct (next_of_skipn idx token r Hr) as [Hnext _]. run Hnext.
    simpl in Hstop. apply negb_true_iff, orb_false_iff in Hstop as [-> ->].
    run (rewind_S idx). reflexivity.
Qed.

Lemma loop_stop_term (rec : P Expression) (n : nat) (left : Expression)
      (idx : nat) (r : list Token) :
  skipn idx tokens = r -> stops_term r = true ->
  parseTerm_loop tokens rec (S n) left idx = Ok (left, idx).
Proof.
  intros Hr Hstop. cbn [parseTerm_loop].
  destruct r as [ | token r].
  - run (next_None tokens idx (skipn_nil_nth_error tokens idx Hr)). reflexivity.
  - destruct (next_of_skipn idx token r Hr) as [Hnext _]. run Hnext.
    simpl in Hstop. unfold isOperator in Hstop.
    apply negb_true_iff in Hstop.
    apply orb_false_iff in Hstop as [Hstop _].
    apply orb_false_iff in Hstop as [Hstop _].
    apply orb_false_iff in Hstop as [-> ->].
    run (rewind_S idx). reflexivity.
Qed.

Lemma complete_all :
  (forall p e, primary_d p e ->
     forall fuel idx r,
       skipn idx tokens = p ++ r -> (length p <= S fuel)%nat ->
       parsePrimary tokens (parseExpression tokens fuel) idx
       = Ok (e, (idx + length p)%nat))
  /\ (forall left q e, factor_loop_d left q e ->
     forall fuel idx r n,
       skipn idx tokens = q ++ r -> stops_factor r = true ->
       (length q <= S fuel)%nat -> (length q < n)%nat ->
       parseFactor_loop tokens (parseExpression tokens fuel) n left idx
       = Ok (e, (idx + length q)%nat))
  /\ (forall p e, factor_d p e ->
     forall fuel idx r,
       skipn idx tokens = p ++ r -> stops_factor r = true ->
       (length p <= S fuel)%nat ->
       parseFactor tokens (parseExpression tokens fuel) idx
       = Ok (e, (idx + length p)%nat))
  /\ (forall left q e, term_loop_d left q e ->
     forall fuel idx r n,
       skipn idx tokens = q ++ r -> stops_term r = true ->
       (length q <= S fuel)%nat -> (length q < n)%nat ->
       parseTerm_loop tokens (parseExpression tokens fuel) n left idx
       = Ok (e, (idx + length q)%nat))
  /\ (forall p e, term_d p e ->
     forall fuel idx r,
       skipn idx tokens = p ++ r -> stops_term r = true ->
       (length p <= S fuel)%nat ->
       parseTerm tokens (parseExpression tokens fuel) idx
       = Ok (e, (idx + length p)%nat)).
Proof.
  apply derivation_mutind.
  - (* an integer *)
    intros token value Htype Hstoi fuel idx r Hsk _.
    destruct (next_of_skipn idx token r Hsk) as [Hnext _].
    unfold parsePrimary. run Hnext.
    rewrite (isType_of_getType token _ _ Htype). cbn [TokenType_eqb].
    unfold bindP, lift. rewrite Hstoi. cbn [bind]. unfold ret.
    simpl. now rewrite Nat.add_1_r.
  - (* a group *)
    intros open p expr close Hopen Hp IH Hclose fuel idx r Hsk Hlen.
    simpl in Hsk, Hlen. rewrite length_app in Hlen. simpl in Hlen.
    destruct (next_of_skipn idx open _ Hsk) as [Hnext Hsk'].
    unfold parsePrimary. run Hnext.
    rewrite !(isType_of_getType open _ _ Hopen). cbn [TokenType_eqb].
    destruct fuel as [ | fuel]; [lia | ].
    rewrite <- List.app_assoc in Hsk'.
    assert (Hrec : parseExpression tokens (S fuel) (S idx)
                   = Ok (expr, (S idx + length p)%nat)).
    { cbn [parseExpression]. apply (IH fuel (S idx) ([close] ++ r) Hsk').
      - simpl. unfold isOperator.
        now rewrite !(isType_of_getType close _ _ Hclose).
      - lia. }
    run Hrec.
    apply skipn_app_skipn in Hsk'.
    destruct (next_of_skipn _ close r Hsk') as [Hnext' _]. run Hnext'.
    rewrite (isType_of_getType close _ _ Hclose). cbn [TokenType_eqb].
    unfold ret. f_equal. f_equal. simpl. rewrite length_app. simpl. lia.
  - (* the factor loop stops *)
    intros left fuel idx r n Hsk Hstop _ Hn.
    destruct n as [ | n]; [simpl in Hn; lia | ].
    simpl. rewrite Nat.add_0_r. now apply (loop_stop_factor _ n left idx r).
  - (* a round of the factor loop on a star *)
    intros left op p right q e Hop Hp IHp Hq IHq fuel idx r n Hsk Hstop Hlen Hn.
    simpl in Hsk, Hlen, Hn. rewrite length_app in Hlen, Hn.
    destruct n as [ | n]; [lia | ].
    destruct (next_of_skipn idx op _ Hsk) as [Hnext Hsk'].
    cbn [parseFactor_loop]. run Hnext.
    rewrite (isType_of_getType op _ _ Hop). cbn [TokenType_eqb].
    rewrite <- List.app_assoc in Hsk'.
    run (IHp fuel (S idx) (q ++ r) Hsk' ltac:(lia)).
    apply skipn_app_skipn in Hsk'.
    rewrite (IHq fuel _ r n Hsk' Hstop) by lia.
    f_equal. f_equal. simpl. rewrite length_app. lia.
  - (* a round of the factor loop on a slash *)
    intros left op p right q e Hop Hp IHp Hq IHq fuel idx r n Hsk Hstop Hlen Hn.
    simpl in Hsk, Hlen, Hn. rewrite length_app in Hlen, Hn.
    destruct n as [ | n]; [lia | ].
    destruct (next_of_skipn idx op _ Hsk) as [Hnext Hsk'].
    cbn [parseFactor_loop]. run Hnext.
    rewrite !(isType_of_getType op _ _ Hop). cbn [TokenType_eqb].
    rewrite <- List.app_assoc in Hsk'.
    run (IHp fuel (S idx) (q ++ r) Hsk' ltac:(lia)).
    apply skipn_app_skipn in Hsk'.
    rewrite (IHq fuel _ r n Hsk' Hstop) by lia.
    f_equal. f_equal. simpl. rewrite length_app. lia.
  - (* a factor *)
    intros p left q e Hp IHp Hq IHq fuel idx r Hsk Hstop Hlen.
    rewrite length_app in Hlen.
    pose proof (skipn_app_length tokens idx _ _ Hsk) as Htot.
    rewrite length_app in Htot.
    rewrite <- List.app_assoc in Hsk.
    unfold parseFactor. run (IHp fuel idx (q ++ r) Hsk ltac:(lia)).
    apply skipn_app_skipn in Hsk.
    rewrite (IHq fuel _ r (rounds tokens) Hsk Hstop) by (unfold rounds; lia).
    f_equal. f_equal. rewrite length_app. lia.
  - (* the term loop stops *)
    intros left fuel idx r n Hsk Hstop _ Hn.
    destruct n as [ | n]; [simpl in Hn; lia | ].
    simpl. rewrite Nat.add_0_r. now apply (loop_stop_term _ n left idx r).
  - (* a round of the term loop on a plus *)
    intros left op p right q e Hop Hp IHp Hq IHq fuel idx r n Hsk Hstop Hlen Hn.
    simpl in Hsk, Hlen, Hn. rewrite length_app in Hlen, Hn.
    destruct n as [ | n]; [lia | ].
    destruct (next_of_skipn idx op _ Hsk) as [Hnext Hsk'].
    cbn [parseTerm_loop]. run Hnext.
    rewrite (isType_of_getType op _ _ Hop). cbn [TokenType_eqb].
    rewrite <- List.app_assoc in Hsk'.
    run (IHp fuel (S idx) (q ++ r) Hsk'
             (term_loop_d_stops _ _ _ r Hq Hstop) ltac:(lia)).
    apply skipn_app_skipn in Hsk'.
    rewrite (IHq fuel _ r n Hsk' Hstop) by lia.
    f_equal. f_equal. simpl. rewrite length_app. lia.
  - (* a round of the term loop on a minus *)
    intros left op p right q e Hop Hp IHp Hq IHq fuel idx r n Hsk Hstop Hlen Hn.
    simpl in Hsk, Hlen, Hn. rewrite length_app in Hlen, Hn.
    destruct n as [ | n]; [lia | ].
    destruct (next_of_skipn idx op _ Hsk) as [Hnext Hsk'].
    cbn [parseTerm_loop]. run Hnext.
    rewrite !(isType_of_getType op _ _ Hop). cbn [TokenType_eqb].
    rewrite <- List.app_assoc in Hsk'.
    run (IHp fuel (S idx) (q ++ r) Hsk'
             (term_loop_d_stops _ _ _ r Hq Hstop) ltac:(lia)).
    apply skipn_app_skipn in Hsk'.
    rewrite (IHq fuel _ r n Hsk' Hstop) by lia.
    f_equal. f_equal. simpl. rewrite length_app. lia.
  - (* a term *)
    intros p left q e Hp IHp Hq IHq fuel idx r Hsk Hstop Hlen.
    rewrite length_app in Hlen.
    pose proof (skipn_app_length tokens idx _ _ Hsk) as Htot.
    rewrite length_app in Htot.
    rewrite <- List.app_assoc in Hsk.
    unfold parseTerm.
    run (IHp fuel idx (q ++ r) Hsk (term_loop_d_stops _ _ _ r Hq Hstop) ltac:(lia)).
    apply skipn_app_skipn in Hsk.
    rewrite (IHq fuel _ r (rounds tokens) Hsk Hstop) by (unfold rounds; lia).
    f_equal. f_equal. rewrite length_app. lia.
Qed.

End Complete.

(** ** The bounds of the parser model are never reached *)

Lemma primary_d_length (p : list Token) (e : Expression) :
  primary_d p e -> (0 < length p)%nat.
Proof. intros [ | ]; simpl; lia. Qed.

Lemma factor_d_length (p : list Token) (e : Expression) :
  factor_d p e -> (0 < length p)%nat.
Proof.
  intros [p' left q e' Hp _]. apply primary_d_length in Hp.
  rewrite length_app. lia.
Qed.

Lemma bindP_not_OutOfFuel {A B : Type} (m : P A) (k : A -> P B) (idx : nat) :
  m idx <> OutOfFuel ->
  (forall a idx', m idx = Ok (a, idx') -> k a idx' <> OutOfFuel) ->
  bindP m k idx <> OutOfFuel.
Proof.
  intros Hm Hk. unfold bindP.
  destruct (m idx) as [[a idx'] | e | ]; cbn [bind];
    [now apply Hk | discriminate | congruence].
Qed.

Lemma stoi_number_not_OutOfFuel (negative : bool) (ds : list ascii) :
  stoi_number negative ds <> OutOfFuel.
Proof.
  unfold stoi_number. destruct ds as [ | c ds]; [discriminate | ].
  destruct (isdigit c); [ | discriminate]. cbv zeta.
  destruct (in_int _); discriminate.
Qed.

Lemma stoi_not_OutOfFuel (str : list ascii) : stoi str <> OutOfFuel.
Proof.
  unfold stoi. destruct (skip_spaces str) as [ | c s].
  - apply stoi_number_not_OutOfFuel.
  - destruct c as [[] [] [] [] [] [] [] []]; apply stoi_number_not_OutOfFuel.
Qed.

Section Levels_total.

Variable tokens : list Token.
Variable rec : P Expression.
Variable lo : nat.

Hypothesis rec_sound : forall idx e idx',
  rec idx = Ok (e, idx') ->
  exists p, term_d p e /\ span tokens idx p idx' /\
            stops_term (skipn idx' tokens) = true.

Hypothesis rec_total : forall idx,
  (lo <= idx)%nat -> (idx <= length tokens)%nat -> rec idx <> OutOfFuel.

Lemma next_not_OutOfFuel (idx : nat) : next tokens idx <> OutOfFuel.
Proof. unfold next. destruct (nth_error tokens idx); discriminate. Qed.

Lemma next_Some_inv (idx : nat) (token : Token) (idx' : nat) :
  next tokens idx = Ok (Some token, idx') ->
  idx' = S idx /\ (idx < length tokens)%nat.
Proof.
  unfold next. destruct (nth_error tokens idx) as [t | ] eqn:Hnth; [ | discriminate].
  intros [= <- <-]. split; [reflexivity | ].
  apply nth_error_Some. congruence.
Qed.

Lemma parsePrimary_total (idx : nat) :
  (lo <= S idx)%nat -> parsePrimary tokens rec idx <> OutOfFuel.
Proof.
  intros Hlo. unfold parsePrimary.
  apply bindP_not_OutOfFuel; [apply next_not_OutOfFuel | ].
  intros [token | ] i1 Hnext; [ | discriminate].
  apply next_Some_inv in Hnext as [-> Hlt].
  destruct (isType token INTEGER).
  - unfold bindP, lift, ret. destruct (stoi (getValue token)) eqn:Hstoi;
      cbn [bind]; try discriminate.
    exfalso. exact (stoi_not_OutOfFuel _ Hstoi).
  - destruct (isType token LPARENTHESIS); [ | discriminate].
    apply bindP_not_OutOfFuel; [apply rec_total; lia | ].
    intros expr i2 _.
    apply bindP_not_OutOfFuel; [apply next_not_OutOfFuel | ].
    intros [close | ] i3 _; [ | discriminate].
    destruct (isType close RPARENTHESIS); discriminate.
Qed.

Lemma parsePrimary_progress (idx : nat) (e : Expression) (idx' : nat) :
  parsePrimary tokens rec idx = Ok (e, idx') -> (idx < idx')%nat.
Proof.
  intros H. apply (parsePrimary_sound tokens rec rec_sound) in H
    as (p & Hp & [-> _]).
  apply primary_d_length in Hp. lia.
Qed.

Lemma parseFactor_loop_total (n : nat) :
  forall (left : Expression) (idx : nat),
  (lo <= S idx)%nat -> (length tokens - idx < n)%nat ->
  parseFactor_loop tokens rec n left idx <> OutOfFuel.
Proof.
  induction n as [ | n IH]; intros left idx Hlo Hn; [lia | ].
  cbn [parseFactor_loop].
  apply bindP_not_OutOfFuel; [apply next_not_OutOfFuel | ].
  intros [op | ] i1 Hnext; [ | discriminate].
  apply next_Some_inv in Hnext as [-> Hlt].
  assert (Hround : forall f : Expression -> Expression,
             bindP (parsePrimary tokens rec)
                   (fun right => parseFactor_loop tokens rec n (f right)) (S idx)
             <> OutOfFuel).
  { intros f. apply bindP_not_OutOfFuel; [apply parsePrimary_total; lia | ].
    intros right i2 Hprim. apply parsePrimary_progress in Hprim.
    apply IH; lia. }
  destruct (isType op STAROPERATOR); [apply (Hround (StarBinaryOp left)) | ].
  destruct (isType op SLASHOPERATOR); [apply (Hround (DivBinaryOp left)) | ].
  discriminate.
Qed.

Lemma parseFactor_total (idx : nat) :
  (lo <= S idx)%nat -> parseFactor tokens rec idx <> OutOfFuel.
Proof.
  intros Hlo. unfold parseFactor.
  apply bindP_not_OutOfFuel; [now apply parsePrimary_total | ].
  intros left i1 Hprim. apply parsePrimary_progress in Hprim.
  apply parseFactor_loop_total; unfold rounds; lia.
Qed.

Lemma parseFactor_progress (idx : nat) (e : Expression) (idx' : nat) :
  parseFactor tokens rec idx = Ok (e, idx') -> (idx < idx')%nat.
Proof.
  intros H. apply (parseFactor_sound tokens rec rec_sound) in H
    as (p & Hp & [-> _] & _).
  apply factor_d_length in Hp. lia.
Qed.

Lemma parseTerm_loop_total (n : nat) :
  forall (left : Expression) (idx : nat),
  (lo <= S idx)%nat -> (length tokens - idx < n)%nat ->
  parseTerm_loop tokens rec n left idx <> OutOfFuel.
Proof.
  induction n as [ | n IH]; intros left idx Hlo Hn; [lia | ].
  cbn [parseTerm_loop].
  apply bindP_not_OutOfFuel; [apply next_not_OutOfFuel | ].
  intros [op | ] i1 Hnext; [ | discriminate].
  apply next_Some_inv in Hnext as [-> Hlt].
  assert (Hround : forall f : Expression -> Expression,
             bindP (parseFactor tokens rec)
                   (fun right => parseTerm_loop tokens rec n (f right)) (S idx)
             <> OutOfFuel).
  { intros f. apply bindP_not_OutOfFuel; [apply parseFactor_total; lia | ].
    intros right i2 Hfac. apply parseFactor_progress in Hfac.
    apply IH; lia. }
  destruct (isType op PLUSOPERATOR); [apply (Hround (PlusBinaryOp left)) | ].
  destruct (isType op MINUSOPERATOR); [apply (Hround (MinusBinaryOp left)) | ].
  discriminate.
Qed.

Lemma parseTerm_total (idx : nat) :
  (lo <= S idx)%nat -> parseTerm tokens rec idx <> OutOfFuel.
Proof.
  intros Hlo. unfold parseTerm.
  apply bindP_not_OutOfFuel; [now apply parseFactor_total | ].
  intros left i1 Hfac. apply parseFactor_progress in Hfac.
  apply parseTerm_loop_total; unfold rounds; lia.
Qed.

End Levels_total.

Lemma parseExpression_total (tokens : list Token) (fuel : nat) :
  forall idx, (length tokens - idx < fuel)%nat ->
              parseExpression tokens fuel idx <> OutOfFuel.
Proof.
  induction fuel as [ | fuel IH]; intros idx Hfuel; [lia | ].
  cbn [parseExpression].
  apply (parseTerm_total tokens _ (S idx)); [ | | lia].
  - apply parseExpression_sound.
  - intros j Hlo Hj. apply IH. lia.
Qed.

Lemma interpret_not_OutOfFuel (e : Expression) : interpret e <> OutOfFuel.
Proof.
  induction e as [value | l IHl r IHr | l IHl r IHr | l IHl r IHr | l IHl r IHr];
    simpl; try discriminate;
    destruct (interpret l), (interpret r); simpl; try congruence;
    destruct (_ =? 0)%Z; discriminate.
Qed.

(** ** [Parser::parse] and the derivations *)

Lemma parse_sound (tokens : list Token) (e : Expression) (idx : nat) :
  parse tokens = Ok (e, idx) ->
  exists p, term_d p e /\ tokens = p ++ skipn idx tokens /\ idx = length p /\
            stops_term (skipn idx tokens) = true.
Proof.
  intros H. apply parseExpression_sound in H as (p & Hp & [Hidx Hsk] & Hstop).
  exists p. now repeat split.
Qed.

Lemma parse_complete (p : list Token) (e : Expression) (r : list Token) :
  term_d p e -> stops_term r = true -> parse (p ++ r) = Ok (e, length p).
Proof.
  intros Hp Hr. unfold parse, rounds. cbn [parseExpression].
  destruct (complete_all (p ++ r)) as (_ & _ & _ & _ & Hterm).
  apply (Hterm p e Hp (length (p ++ r)) 0%nat r eq_refl Hr).
  rewrite length_app. lia.
Qed.

Lemma parse_total (tokens : list Token) : parse tokens <> OutOfFuel.
Proof. apply parseExpression_total. unfold rounds. lia. Qed.

Lemma operand_primary_d (tokens : list Token) (e : Expression) :
  operand tokens e <-> primary_d tokens e.
Proof.
  unfold operand, parsePrimary_new. split.
  - intros H.
    apply (parsePrimary_sound tokens _ (parseExpression_sound tokens _)) in H
      as (p & Hp & [Hlen Hsk]).
    simpl in Hsk. rewrite skipn_all, List.app_nil_r in Hsk. now subst p.
  - intros Hp. destruct (complete_all tokens) as (Hprim & _).
    apply (Hprim tokens e Hp (rounds tokens) 0%nat []).
    + simpl. now rewrite List.app_nil_r.
    + unfold rounds. lia.
Qed.

(** The evaluation is the interpretation of the tree that the parse
    returns. *)
Lemma evaluate_parse (expr : list ascii) (tokens : list Token)
      (e : Expression) (idx : nat) :
  tokenize expr = Ok tokens -> parse tokens = Ok (e, idx) ->
  evaluate expr = interpret e.
Proof.
  intros Ht Hp. unfold evaluate. rewrite Ht. cbn [bind]. now rewrite Hp.
Qed.

Theorem evaluate_total (expr : list ascii) : evaluate expr <> OutOfFuel.
Proof.
  unfold evaluate, tokenize.
  pose proof (tokenize_from_not_OutOfFuel expr []) as Ht.
  destruct (tokenize_from expr []) as [tokens | ex | ]; cbn [bind];
    [ | discriminate | congruence].
  pose proof (parse_total tokens) as Hp.
  destruct (parse tokens) as [[e idx] | ex | ]; cbn [bind];
    [ | discriminate | congruence].
  apply interpret_not_OutOfFuel.
Qed.

(** ** An exception ends the parse *)

Lemma bindP_Throw {A B : Type} (m : P A) (k : A -> P B) (idx : nat) (ex : exception) :
  m idx = Throw ex -> bindP m k idx = Throw ex.
Proof. unfold bindP. now intros ->. Qed.

Lemma parseFactor_Throw (tokens : list Token) (rec : P Expression) (idx : nat)
      (ex : exception) :
  parsePrimary tokens rec idx = Throw ex -> parseFactor tokens rec idx = Throw ex.
Proof. apply bindP_Throw. Qed.

Lemma parseTerm_Throw (tokens : list Token) (rec : P Expression) (idx : nat)
      (ex : exception) :
  parsePrimary tokens rec idx = Throw ex -> parseTerm tokens rec idx = Throw ex.
Proof. intros H. apply bindP_Throw. now apply parseFactor_Throw. Qed.

Lemma parse_Throw (tokens : list Token) (ex : exception) :
  parsePrimary tokens (parseExpression tokens (length tokens)) 0 = Throw ex ->
  parse tokens = Throw ex.
Proof. apply parseTerm_Throw. Qed.

(** ** [parsePrimary] and the loops, by cases *)

Lemma parsePrimary_invalid (tokens : list Token) (rec : P Expression) (idx : nat)
      (token : Token) :
  nth_error tokens idx = Some token ->
  isType token INTEGER = false -> isType token LPARENTHESIS = false ->
  parsePrimary tokens rec idx = Throw (ParseError InvalidPrimary).
Proof.
  intros Hnth Hint Hopen. unfold parsePrimary.
  run (next_Some tokens idx token Hnth). now rewrite Hint, Hopen.
Qed.

Lemma parsePrimary_end (tokens : list Token) (rec : P Expression) (idx : nat) :
  nth_error tokens idx = None ->
  parsePrimary tokens rec idx = Throw (ParseError UnexpectedEnd).
Proof.
  intros Hnth. unfold parsePrimary.
  run (next_None tokens idx Hnth). reflexivity.
Qed.

(** What [parsePrimary] does after a left parenthesis, from the result of
    the call of [parseExpression]. *)
Lemma parsePrimary_group (tokens : list Token) (rec : P Expression) (idx : nat)
      (open : Token) (expr : Expression) (idx' : nat) :
  nth_error tokens idx = Some open ->
  isType open INTEGER = false -> isType open LPARENTHESIS = true ->
  rec (S idx) = Ok (expr, idx') ->
  parsePrimary tokens rec idx =
  match nth_error tokens idx' with
  | Some close =>
      if isType close RPARENTHESIS then Ok (expr, S idx')
      else Throw (ParseError ExpectedCloseParen)
  | None => Throw (ParseError ExpectedCloseParen)
  end.
Proof.
  intros Hnth Hint Hopen Hrec. unfold parsePrimary.
  run (next_Some tokens idx open Hnth). rewrite Hint, Hopen.
  run Hrec. unfold bindP, next.
  destruct (nth_error tokens idx') as [close | ]; cbn [bind]; [ | reflexivity].
  now destruct (isType close RPARENTHESIS).
Qed.

(** The rounds of the two loops, by the token that [next] returns. *)
Lemma parseFactor_loop_next (tokens : list Token) (rec : P Expression) (n : nat)
      (left : Expression) (idx : nat) (op : Token) :
  nth_error tokens idx = Some op ->
  parseFactor_loop tokens rec (S n) left idx =
  if isType op STAROPERATOR then
    bindP (parsePrimary tokens rec)
          (fun right => parseFactor_loop tokens rec n (StarBinaryOp left right))
          (S idx)
  else if isType op SLASHOPERATOR then
    bindP (parsePrimary tokens rec)
          (fun right => parseFactor_loop tokens rec n (DivBinaryOp left right))
          (S idx)
  else Ok (left, idx).
Proof.
  intros Hnth. cbn [parseFactor_loop]. run (next_Some tokens idx op Hnth).
  destruct (isType op STAROPERATOR); [reflexivity | ].
  destruct (isType op SLASHOPERATOR); [reflexivity | ].
  run (rewind_S idx). reflexivity.
Qed.

Lemma parseTerm_loop_next (tokens : list Token) (rec : P Expression) (n : nat)
      (left : Expression) (idx : nat) (op : Token) :
  nth_error tokens idx = Some op ->
  parseTerm_loop tokens rec (S n) left idx =
  if isType op PLUSOPERATOR then
    bindP (parseFactor tokens rec)
          (fun right => parseTerm_loop tokens rec n (PlusBinaryOp left right))
          (S idx)
  else if isType op MINUSOPERATOR then
    bindP (parseFactor tokens rec)
          (fun right => parseTerm_loop tokens rec n (MinusBinaryOp left right))
          (S idx)
  else Ok (left, idx).
Proof.
  intros Hnth. cbn [parseTerm_loop]. run (next_Some tokens idx op Hnth).
  destruct (isType op PLUSOPERATOR); [reflexivity | ].
  destruct (isType op MINUSOPERATOR); [reflexivity | ].
  run (rewind_S idx). reflexivity.
Qed.

Lemma parse_all_term_d (p : list Token) (e : Expression) :
  parse p = Ok (e, length p) <-> term_d p e.
Proof.
  split.
  - intros H. apply parse_sound in H as (p' & Hp' & Hp & _ & _).
    rewrite skipn_all, List.app_nil_r in Hp. now subst p'.
  - intros H. rewrite <- (List.app_nil_r p) at 1. now apply parse_complete.
Qed.

(** ** One more token at the end of the vector *)

Lemma stoi_number_Throw (negative : bool) (ds : list ascii) (e : exception) :
  stoi_number negative ds = Throw e -> exists kind, e = StoiError kind.
Proof.
  unfold stoi_number. destruct ds as [ | c ds].
  - intros [= <-]. now eexists.
  - destruct (isdigit c); [ | intros [= <-]; now eexists]. cbv zeta.
    destruct (in_int _); [discriminate | intros [= <-]; now eexists].
Qed.

Lemma stoi_Throw (str : list ascii) (e : exception) :
  stoi str = Throw e -> exists kind, e = StoiError kind.
Proof.
  unfold stoi. destruct (skip_spaces str) as [ | c s].
  - apply stoi_number_Throw.
  - destruct c as [[] [] [] [] [] [] [] []]; apply stoi_number_Throw.
Qed.

Section Extension.

(** The parser on [pre] and on [pre] followed by [x] and more. *)
Variable pre : list Token.
Variable x : Token.
Variable r : list Token.

Local Abbreviation ext := (pre ++ x :: r).

Lemma skipn_ext (idx : nat) :
  idx <= length pre -> skipn idx ext = skipn idx pre ++ x :: r.
Proof.
  intros H. rewrite skipn_app.
  replace (idx - length pre) with 0 by lia. reflexivity.
Qed.

Lemma nth_error_ext (idx : nat) (token : Token) :
  nth_error pre idx = Some token -> nth_error ext idx = Some token.
Proof.
  intros H. rewrite nth_error_app1; [exact H | ].
  apply nth_error_Some. congruence.
Qed.

Lemma nth_error_ext_end : nth_error ext (length pre) = Some x.
Proof. now rewrite nth_error_app2, Nat.sub_diag by lia. Qed.

Lemma span_bounds (idx : nat) (p : list Token) (idx' : nat) :
  span pre idx p idx' -> idx <= length pre ->
  idx' <= length pre /\ length p <= length pre - idx.
Proof.
  intros [-> Hsk] Hidx. apply (f_equal (@length Token)) in Hsk.
  rewrite length_app, !length_skipn in Hsk. lia.
Qed.

Lemma span_ext (idx : nat) (p : list Token) (idx' : nat) :
  span pre idx p idx' -> idx <= length pre ->
  skipn idx ext = p ++ (skipn idx' pre ++ x :: r).
Proof.
  intros Hspan Hidx. destruct (span_bounds idx p idx' Hspan Hidx) as [Hidx' _].
  destruct Hspan as [_ Hsk].
  rewrite skipn_ext, Hsk by exact Hidx. now rewrite <- List.app_assoc.
Qed.

Lemma skipn_end (idx : nat) :
  idx <= length pre -> skipn idx pre = [] -> idx = length pre.
Proof.
  intros Hle H. apply (f_equal (@length Token)) in H.
  rewrite length_skipn in H. simpl in H. lia.
Qed.

(** What a call has returned on [pre], it returns on the longer vector,
    unless it has stopped at the end of [pre] and [x] makes it go on. *)
Lemma parsePrimary_stable (fuel fuel' idx : nat) (e : Expression) (idx' : nat) :
  parsePrimary pre (parseExpression pre fuel) idx = Ok (e, idx') ->
  idx <= length pre -> length ext <= S fuel' + idx ->
  parsePrimary ext (parseExpression ext fuel') idx = Ok (e, idx').
Proof.
  intros H Hidx Hfuel.
  apply (parsePrimary_sound pre _ (parseExpression_sound pre fuel)) in H
    as (p & Hp & Hspan).
  pose proof (span_ext idx p idx' Hspan Hidx) as Hsk.
  destruct (span_bounds idx p idx' Hspan Hidx) as [_ Hlen].
  destruct Hspan as [-> _].
  destruct (complete_all ext) as (Hprim & _).
  apply (Hprim p e Hp fuel' idx _ Hsk).
  rewrite length_app in Hfuel. simpl in Hfuel. lia.
Qed.

Lemma parseFactor_stable (fuel fuel' idx : nat) (e : Expression) (idx' : nat) :
  parseFactor pre (parseExpression pre fuel) idx = Ok (e, idx') ->
  idx <= length pre -> length ext <= S fuel' + idx ->
  idx' < length pre
  \/ (isType x STAROPERATOR = false /\ isType x SLASHOPERATOR = false) ->
  parseFactor ext (parseExpression ext fuel') idx = Ok (e, idx').
Proof.
  intros H Hidx Hfuel Hx.
  apply (parseFactor_sound pre _ (parseExpression_sound pre fuel)) in H
    as (p & Hp & Hspan & Hstop).
  pose proof (span_ext idx p idx' Hspan Hidx) as Hsk.
  destruct (span_bounds idx p idx' Hspan Hidx) as [Hidx' Hlen].
  destruct Hspan as [-> _].
  destruct (complete_all ext) as (_ & _ & Hfac & _).
  apply (Hfac p e Hp fuel' idx _ Hsk).
  - destruct (skipn (idx + length p) pre) as [ | token rest] eqn:Hrest.
    + apply skipn_end in Hrest; [ | exact Hidx'].
      destruct Hx as [Hx | [H1 H2]]; [lia | ]. simpl. now rewrite H1, H2.
    + exact Hstop.
  - unfold ext in Hfuel. rewrite length_app in Hfuel. simpl in Hfuel. lia.
Qed.

Lemma parseExpression_stable (fuel fuel' idx : nat) (e : Expression) (idx' : nat) :
  parseExpression pre fuel idx = Ok (e, idx') ->
  idx <= length pre -> length ext <= fuel' + idx -> fuel <= fuel' ->
  idx' < length pre \/ isOperator x = false ->
  parseExpression ext fuel' idx = Ok (e, idx').
Proof.
  intros H Hidx Hfuel Hle Hx.
  destruct fuel as [ | fuel]; [discriminate | ].
  destruct fuel' as [ | fuel']; [lia | ].
  apply parseExpression_sound in H as (p & Hp & Hspan & Hstop).
  pose proof (span_ext idx p idx' Hspan Hidx) as Hsk.
  destruct (span_bounds idx p idx' Hspan Hidx) as [Hidx' Hlen].
  destruct Hspan as [-> _].
  destruct (complete_all ext) as (_ & _ & _ & _ & Hterm).
  cbn [parseExpression].
  apply (Hterm p e Hp fuel' idx _ Hsk).
  - destruct (skipn (idx + length p) pre) as [ | token rest] eqn:Hrest.
    + apply skipn_end in Hrest; [ | exact Hidx'].
      destruct Hx as [Hx | Hx]; [lia | ]. simpl. now rewrite Hx.
    + exact Hstop.
  - unfold ext in Hfuel. rewrite length_app in Hfuel. simpl in Hfuel. lia.
Qed.

(** At the end of the vector a loop returns. *)
Lemma parseFactor_loop_end (rec : P Expression) (n : nat) (left : Expression)
      (idx : nat) (ex : exception) :
  length pre <= idx -> parseFactor_loop pre rec n left idx <> Throw ex.
Proof.
  intros Hidx. destruct n as [ | n]; [discriminate | ].
  cbn [parseFactor_loop].
  rewrite (bindP_Ok _ _ _ _ _ (next_None pre idx (proj2 (nth_error_None pre idx) Hidx))).
  discriminate.
Qed.

Lemma parseTerm_loop_end (rec : P Expression) (n : nat) (left : Expression)
      (idx : nat) (ex : exception) :
  length pre <= idx -> parseTerm_loop pre rec n left idx <> Throw ex.
Proof.
  intros Hidx. destruct n as [ | n]; [discriminate | ].
  cbn [parseTerm_loop].
  rewrite (bindP_Ok _ _ _ _ _ (next_None pre idx (proj2 (nth_error_None pre idx) Hidx))).
  discriminate.
Qed.

Lemma carried_not_stoi (ex ex' : exception) (kind : StoiErrorKind) :
  carried x ex ex' -> ex <> StoiError kind.
Proof. intros [(-> & _) | (-> & _)]; discriminate. Qed.

Lemma carried_not_invalid (ex ex' : exception) :
  carried x ex ex' -> ex <> ParseError InvalidPrimary.
Proof. intros [(-> & _) | (-> & _)]; discriminate. Qed.

Section Carried.

Variables fuel fuel' : nat.
Variables ex ex' : exception.

Hypothesis fuel_le : fuel <= fuel'.
Hypothesis Hcarried : carried x ex ex'.

Hypothesis rec_carries : forall idx,
  idx <= length pre -> length ext <= fuel' + idx ->
  parseExpression pre fuel idx = Throw ex ->
  parseExpression ext fuel' idx = Throw ex'.

Lemma parsePrimary_carries (idx : nat) :
  idx <= length pre -> length ext <= S fuel' + idx ->
  parsePrimary pre (parseExpression pre fuel) idx = Throw ex ->
  parsePrimary ext (parseExpression ext fuel') idx = Throw ex'.
Proof.
  intros Hidx Hfuel H. unfold parsePrimary in H.
  destruct (nth_error pre idx) as [token | ] eqn:Hnth.
  - (* a token of [pre] *)
    assert (Hlt : idx < length pre) by (apply nth_error_Some; congruence).
    rewrite (bindP_Ok _ _ _ _ _ (next_Some pre idx token Hnth)) in H.
    unfold parsePrimary.
    rewrite (bindP_Ok _ _ _ _ _ (next_Some ext idx token (nth_error_ext idx token Hnth))).
    destruct (isType token INTEGER).
    + exfalso. unfold bindP, lift, ret in H.
      destruct (stoi (getValue token)) as [v | e | ] eqn:Hstoi; cbn [bind] in H;
        try discriminate.
      injection H as He. apply stoi_Throw in Hstoi as [kind ->].
      exact (carried_not_stoi _ _ kind Hcarried (eq_sym He)).
    + destruct (isType token LPARENTHESIS).
      * destruct (parseExpression pre fuel (S idx)) as [[expr i2] | e | ] eqn:Hrec.
        -- rewrite (bindP_Ok _ _ _ _ _ Hrec) in H.
           pose proof Hrec as Hsound.
           apply parseExpression_sound in Hsound as (p & _ & Hspan & _).
           destruct (span_bounds (S idx) p i2 Hspan ltac:(lia)) as [Hi2 _].
           assert (Hex : ex = ParseError ExpectedCloseParen).
           { unfold bindP, next in H.
             destruct (nth_error pre i2) as [close | ]; cbn [bind] in H.
             - destruct (isType close RPARENTHESIS); [discriminate | ].
               now injection H.
             - now injection H. }
           destruct Hcarried as [(Hue & _) | (_ & -> & Hop & Hrp)];
             [congruence | ].
           rewrite (bindP_Ok _ _ _ _ _
                      (parseExpression_stable fuel fuel' (S idx) expr i2 Hrec
                         ltac:(lia) ltac:(lia) fuel_le (or_intror Hop))).
           unfold bindP, next in H |- *.
           destruct (nth_error pre i2) as [close | ] eqn:Hclose; cbn [bind] in H.
           ++ rewrite (nth_error_ext i2 close Hclose). cbn [bind].
              destruct (isType close RPARENTHESIS); [discriminate | reflexivity].
           ++ apply nth_error_None in Hclose.
              replace i2 with (length pre) by lia.
              rewrite nth_error_ext_end. cbn [bind]. now rewrite Hrp.
        -- unfold bindP in H. rewrite Hrec in H. cbn [bind] in H.
           injection H as ->. apply bindP_Throw, rec_carries; [lia | lia | exact Hrec].
        -- unfold bindP in H. rewrite Hrec in H. discriminate.
      * exfalso. injection H as <-. now apply (carried_not_invalid _ _ Hcarried).
  - (* the end of [pre] *)
    rewrite (bindP_Ok _ _ _ _ _ (next_None pre idx Hnth)) in H.
    injection H as <-. apply nth_error_None in Hnth.
    replace idx with (length pre) by lia.
    destruct Hcarried as [(_ & -> & Hint & Hopen) | (Hex & _)]; [ | discriminate].
    unfold parsePrimary.
    rewrite (bindP_Ok _ _ _ _ _ (next_Some ext _ x nth_error_ext_end)).
    now rewrite Hint, Hopen.
Qed.

Lemma parsePrimary_bounds (idx : nat) (e : Expression) (idx' : nat) :
  parsePrimary pre (parseExpression pre fuel) idx = Ok (e, idx') ->
  idx <= length pre -> idx' <= length pre.
Proof.
  intros H Hidx.
  apply (parsePrimary_sound pre _ (parseExpression_sound pre fuel)) in H
    as (p & _ & Hspan).
  now destruct (span_bounds idx p idx' Hspan Hidx).
Qed.

Lemma parseFactor_bounds (idx : nat) (e : Expression) (idx' : nat) :
  parseFactor pre (parseExpression pre fuel) idx = Ok (e, idx') ->
  idx <= length pre -> idx' <= length pre.
Proof.
  intros H Hidx.
  apply (parseFactor_sound pre _ (parseExpression_sound pre fuel)) in H
    as (p & _ & Hspan & _).
  now destruct (span_bounds idx p idx' Hspan Hidx).
Qed.

Lemma parseFactor_loop_carries (n : nat) :
  forall (n' : nat) (left : Expression) (idx : nat),
  n <= n' -> idx <= length pre -> length ext <= S fuel' + idx ->
  parseFactor_loop pre (parseExpression pre fuel) n left idx = Throw ex ->
  parseFactor_loop ext (parseExpression ext fuel') n' left idx = Throw ex'.
Proof.
  induction n as [ | n IH]; intros n' left idx Hn Hidx Hfuel H; [discriminate | ].
  destruct n' as [ | n']; [lia | ].
  destruct (nth_error pre idx) as [op | ] eqn:Hnth.
  2:{ apply nth_error_None in Hnth. now apply parseFactor_loop_end in H. }
  assert (Hlt : idx < length pre) by (apply nth_error_Some; congruence).
  rewrite (parseFactor_loop_next pre _ n left idx op Hnth) in H.
  rewrite (parseFactor_loop_next ext _ n' left idx op (nth_error_ext idx op Hnth)).
  assert (Hround : forall f : Expression -> Expression,
             bindP (parsePrimary pre (parseExpression pre fuel))
                   (fun right => parseFactor_loop pre (parseExpression pre fuel)
                                                  n (f right)) (S idx)
             = Throw ex ->
             bindP (parsePrimary ext (parseExpression ext fuel'))
                   (fun right => parseFactor_loop ext (parseExpression ext fuel')
                                                  n' (f right)) (S idx)
             = Throw ex').
  { intros f Hf.
    destruct (parsePrimary pre (parseExpression pre fuel) (S idx))
      as [[right i2] | e | ] eqn:Hprim;
      unfold bindP in Hf; rewrite Hprim in Hf; cbn [bind] in Hf;
      [ | | discriminate].
    - pose proof (parsePrimary_bounds (S idx) right i2 Hprim ltac:(lia)) as Hi2.
      pose proof (parsePrimary_progress pre _ (parseExpression_sound pre fuel)
                    (S idx) right i2 Hprim) as Hprog.
      rewrite (bindP_Ok _ _ _ _ _
                 (parsePrimary_stable fuel fuel' (S idx) right i2 Hprim
                    ltac:(lia) ltac:(lia))).
      apply IH; [lia | lia | lia | exact Hf].
    - injection Hf as ->.
      apply bindP_Throw, parsePrimary_carries; [lia | lia | exact Hprim]. }
  destruct (isType op STAROPERATOR); [exact (Hround _ H) | ].
  destruct (isType op SLASHOPERATOR); [exact (Hround _ H) | ].
  discriminate.
Qed.

Lemma parseFactor_carries (idx : nat) :
  idx <= length pre -> length ext <= S fuel' + idx ->
  parseFactor pre (parseExpression pre fuel) idx = Throw ex ->
  parseFactor ext (parseExpression ext fuel') idx = Throw ex'.
Proof.
  intros Hidx Hfuel H. unfold parseFactor in H |- *.
  destruct (parsePrimary pre (parseExpression pre fuel) idx)
    as [[left i1] | e | ] eqn:Hprim;
    unfold bindP in H; rewrite Hprim in H; cbn [bind] in H;
    [ | | discriminate].
  - pose proof (parsePrimary_bounds idx left i1 Hprim Hidx) as Hi1.
    pose proof (parsePrimary_progress pre _ (parseExpression_sound pre fuel)
                  idx left i1 Hprim) as Hprog.
    rewrite (bindP_Ok _ _ _ _ _
               (parsePrimary_stable fuel fuel' idx left i1 Hprim Hidx Hfuel)).
    apply (parseFactor_loop_carries (rounds pre)); [ | lia | lia | exact H].
    unfold rounds. rewrite length_app. lia.
  - injection H as ->. now apply bindP_Throw, parsePrimary_carries.
Qed.

Lemma parseTerm_loop_carries (n : nat) :
  forall (n' : nat) (left : Expression) (idx : nat),
  n <= n' -> idx <= length pre -> length ext <= S fuel' + idx ->
  parseTerm_loop pre (parseExpression pre fuel) n left idx = Throw ex ->
  parseTerm_loop ext (parseExpression ext fuel') n' left idx = Throw ex'.
Proof.
  induction n as [ | n IH]; intros n' left idx Hn Hidx Hfuel H; [discriminate | ].
  destruct n' as [ | n']; [lia | ].
  destruct (nth_error pre idx) as [op | ] eqn:Hnth.
  2:{ apply nth_error_None in Hnth. now apply parseTerm_loop_end in H. }
  assert (Hlt : idx < length pre) by (apply nth_error_Some; congruence).
  rewrite (parseTerm_loop_next pre _ n left idx op Hnth) in H.
  rewrite (parseTerm_loop_next ext _ n' left idx op (nth_error_ext idx op Hnth)).
  assert (Hround : forall f : Expression -> Expression,
             bindP (parseFactor pre (parseExpression pre fuel))
                   (fun right => parseTerm_loop pre (parseExpression pre fuel)
                                                n (f right)) (S idx)
             = Throw ex ->
             bindP (parseFactor ext (parseExpression ext fuel'))
                   (fun right => parseTerm_loop ext (parseExpression ext fuel')
                                                n' (f right)) (S idx)
             = Throw ex').
  { intros f Hf.
    destruct (parseFactor pre (parseExpression pre fuel) (S idx))
      as [[right i2] | e | ] eqn:Hfac;
      unfold bindP in Hf; rewrite Hfac in Hf; cbn [bind] in Hf;
      [ | | discriminate].
    - pose proof (parseFactor_bounds (S idx) right i2 Hfac ltac:(lia)) as Hi2.
      pose proof (parseFactor_progress pre _ (parseExpression_sound pre fuel)
                    (S idx) right i2 Hfac) as Hprog.
      assert (Hin : i2 < length pre).
      { destruct (Nat.eq_dec i2 (length pre)) as [-> | Hne]; [ | lia].
        now apply parseTerm_loop_end in Hf. }
      rewrite (bindP_Ok _ _ _ _ _
                 (parseFactor_stable fuel fuel' (S idx) right i2 Hfac
                    ltac:(lia) ltac:(lia) (or_introl Hin))).
      apply IH; [lia | lia | lia | exact Hf].
    - injection Hf as ->.
      apply bindP_Throw, parseFactor_carries; [lia | lia | exact Hfac]. }
  destruct (isType op PLUSOPERATOR); [exact (Hround _ H) | ].
  destruct (isType op MINUSOPERATOR); [exact (Hround _ H) | ].
  discriminate.
Qed.

Lemma parseTerm_carries (idx : nat) :
  idx <= length pre -> length ext <= S fuel' + idx ->
  parseTerm pre (parseExpression pre fuel) idx = Throw ex ->
  parseTerm ext (parseExpression ext fuel') idx = Throw ex'.
Proof.
  intros Hidx Hfuel H. unfold parseTerm in H |- *.
  destruct (parseFactor pre (parseExpression pre fuel) idx)
    as [[left i1] | e | ] eqn:Hfac;
    unfold bindP in H; rewrite Hfac in H; cbn [bind] in H;
    [ | | discriminate].
  - pose proof (parseFactor_bounds idx left i1 Hfac Hidx) as Hi1.
    pose proof (parseFactor_progress pre _ (parseExpression_sound pre fuel)
                  idx left i1 Hfac) as Hprog.
    assert (Hin : i1 < length pre).
    { destruct (Nat.eq_dec i1 (length pre)) as [-> | Hne]; [ | lia].
      now apply parseTerm_loop_end in H. }
    rewrite (bindP_Ok _ _ _ _ _
               (parseFactor_stable fuel fuel' idx left i1 Hfac Hidx Hfuel
                  (or_introl Hin))).
    apply (parseTerm_loop_carries (rounds pre)); [ | lia | lia | exact H].
    unfold rounds. rewrite length_app. lia.
  - injection H as ->. now apply bindP_Throw, parseFactor_carries.
Qed.

End Carried.

(** An exception of [parseExpression] on [pre] is carried to the longer
    vector. *)
Lemma parseExpression_carries (ex ex' : exception) (fuel : nat) :
  carried x ex ex' ->
  forall fuel' idx,
    fuel <= fuel' -> idx <= length pre -> length ext <= fuel' + idx ->
    parseExpression pre fuel idx = Throw ex ->
    parseExpression ext fuel' idx = Throw ex'.
Proof.
  intros Hcarried.
  induction fuel as [ | fuel IH]; intros fuel' idx Hle Hidx Hfuel H;
    [discriminate | ].
  destruct fuel' as [ | fuel']; [lia | ].
  cbn [parseExpression] in H |- *.
  apply (parseTerm_carries fuel fuel' ex ex'); try assumption; try lia.
  intros idx0 Hidx0 Hfuel0 H0. apply IH; try assumption; lia.
Qed.

Lemma parse_carries (ex ex' : exception) :
  carried x ex ex' -> parse pre = Throw ex -> parse ext = Throw ex'.
Proof.
  intros Hcarried H. unfold parse in *.
  apply (parseExpression_carries ex ex' (rounds pre) Hcarried);
    try assumption; unfold rounds; try lia.
  rewrite length_app. lia.
Qed.

End Extension.

(** ** Machine integers *)

Lemma wrap_int_in_range (z : Z) : in_int z = true -> wrap_int z = z.
Proof.
  unfold in_int, wrap_int, INT_MIN, INT_MAX. intros H.
  apply andb_true_iff in H as [Hlo Hhi].
  apply Z.leb_le in Hlo, Hhi.
  rewrite Z.mod_small; lia.
Qed.

(** ** The grammar, read from the left *)

Lemma factor_d_primary (p : list Token) (e : Expression) :
  primary_d p e -> factor_d p e.
Proof.
  intros Hp. rewrite <- (List.app_nil_r p). exact (FD p e [] e Hp (FL_done e)).
Qed.

Lemma term_d_factor (p : list Token) (e : Expression) :
  factor_d p e -> term_d p e.
Proof.
  intros Hp. rewrite <- (List.app_nil_r p). exact (TD p e [] e Hp (TL_done e)).
Qed.

(** One more round at the end of a loop. *)
Lemma factor_loop_d_snoc (left : Expression) (q : list Token) (e : Expression) :
  factor_loop_d left q e ->
  forall (op : Token) (p : list Token) (right : Expression),
    primary_d p right ->
    (getType op = STAROPERATOR ->
     factor_loop_d left (q ++ op :: p) (StarBinaryOp e right))
    /\ (getType op = SLASHOPERATOR ->
        factor_loop_d left (q ++ op :: p) (DivBinaryOp e right)).
Proof.
  induction 1 as [left | left op' p' right' q e Hop' Hp' Hq IH
                        | left op' p' right' q e Hop' Hp' Hq IH];
    intros op p right Hp.
  - split; intros Hop; simpl; rewrite <- (List.app_nil_r p).
    + exact (FL_star left op p right [] _ Hop Hp (FL_done _)).
    + exact (FL_slash left op p right [] _ Hop Hp (FL_done _)).
  - destruct (IH op p right Hp) as [IHstar IHslash].
    split; intros Hop; simpl; rewrite <- List.app_assoc.
    + exact (FL_star left op' p' right' _ _ Hop' Hp' (IHstar Hop)).
    + exact (FL_star left op' p' right' _ _ Hop' Hp' (IHslash Hop)).
  - destruct (IH op p right Hp) as [IHstar IHslash].
    split; intros Hop; simpl; rewrite <- List.app_assoc.
    + exact (FL_slash left op' p' right' _ _ Hop' Hp' (IHstar Hop)).
    + exact (FL_slash left op' p' right' _ _ Hop' Hp' (IHslash Hop)).
Qed.

Lemma term_loop_d_snoc (left : Expression) (q : list Token) (e : Expression) :
  term_loop_d left q e ->
  forall (op : Token) (p : list Token) (right : Expression),
    factor_d p right ->
    (getType op = PLUSOPERATOR ->
     term_loop_d left (q ++ op :: p) (PlusBinaryOp e right))
    /\ (getType op = MINUSOPERATOR ->
        term_loop_d left (q ++ op :: p) (MinusBinaryOp e right)).
Proof.
  induction 1 as [left | left op' p' right' q e Hop' Hp' Hq IH
                        | left op' p' right' q e Hop' Hp' Hq IH];
    intros op p right Hp.
  - split; intros Hop; simpl; rewrite <- (List.app_nil_r p).
    + exact (TL_plus left op p right [] _ Hop Hp (TL_done _)).
    + exact (TL_minus left op p right [] _ Hop Hp (TL_done _)).
  - destruct (IH op p right Hp) as [IHplus IHminus].
    split; intros Hop; simpl; rewrite <- List.app_assoc.
    + exact (TL_plus left op' p' right' _ _ Hop' Hp' (IHplus Hop)).
    + exact (TL_plus left op' p' right' _ _ Hop' Hp' (IHminus Hop)).
  - destruct (IH op p right Hp) as [IHplus IHminus].
    split; intros Hop; simpl; rewrite <- List.app_assoc.
    + exact (TL_minus left op' p' right' _ _ Hop' Hp' (IHplus Hop)).
    + exact (TL_minus left op' p' right' _ _ Hop' Hp' (IHminus Hop)).
Qed.

(** [factor := factor ("*" | "/") primary] and
    [term := term ("+" | "-") factor]: the operator takes all that is on
    its left at its level. *)
Lemma factor_d_snoc (p : list Token) (e : Expression) (op : Token)
      (q : list Token) (right : Expression) :
  factor_d p e -> primary_d q right ->
  (getType op = STAROPERATOR -> factor_d (p ++ op :: q) (StarBinaryOp e right))
  /\ (getType op = SLASHOPERATOR -> factor_d (p ++ op :: q) (DivBinaryOp e right)).
Proof.
  intros [p0 left q0 e0 Hp0 Hq0] Hq.
  destruct (factor_loop_d_snoc left q0 e0 Hq0 op q right Hq) as [Hstar Hslash].
  split; intros Hop; rewrite <- List.app_assoc.
  - exact (FD p0 left _ _ Hp0 (Hstar Hop)).
  - exact (FD p0 left _ _ Hp0 (Hslash Hop)).
Qed.

Lemma term_d_snoc (p : list Token) (e : Expression) (op : Token)
      (q : list Token) (right : Expression) :
  term_d p e -> factor_d q right ->
  (getType op = PLUSOPERATOR -> term_d (p ++ op :: q) (PlusBinaryOp e right))
  /\ (getType op = MINUSOPERATOR -> term_d (p ++ op :: q) (MinusBinaryOp e right)).
Proof.
  intros [p0 left q0 e0 Hp0 Hq0] Hq.
  destruct (term_loop_d_snoc left q0 e0 Hq0 op q right Hq) as [Hplus Hminus].
  split; intros Hop; rewrite <- List.app_assoc.
  - exact (TD p0 left _ _ Hp0 (Hplus Hop)).
  - exact (TD p0 left _ _ Hp0 (Hminus Hop)).
Qed.

(** The parse of an expression followed by an operator and an operand. *)
Lemma parse_snoc_minus (tp : list Token) (p : Expression) (tq : list Token)
      (q : Expression) :
  parse tp = Ok (p, length tp) -> operand tq q ->
  parse (tp ++ minus :: tq)
  = Ok (MinusBinaryOp p q, length (tp ++ minus :: tq)).
Proof.
  intros Hp Hq. apply parse_all_term_d in Hp. apply operand_primary_d in Hq.
  apply parse_all_term_d.
  now apply (term_d_snoc tp p minus tq q Hp (factor_d_primary _ _ Hq)).
Qed.

Lemma parse_snoc_plus (tp : list Token) (p : Expression) (tq : list Token)
      (q : Expression) :
  parse tp = Ok (p, length tp) -> factor_d tq q ->
  parse (tp ++ plus :: tq) = Ok (PlusBinaryOp p q, length (tp ++ plus :: tq)).
Proof.
  intros Hp Hq. apply parse_all_term_d in Hp. apply parse_all_term_d.
  now apply (term_d_snoc tp p plus tq q Hp Hq).
Qed.

Lemma parse_operand (ta : list Token) (a : Expression) :
  operand ta a -> parse ta = Ok (a, length ta).
Proof.
  intros Ha. apply operand_primary_d in Ha.
  now apply parse_all_term_d, term_d_factor, factor_d_primary.
Qed.

Lemma parse_factor_d (tp : list Token) (p : Expression) :
  factor_d tp p -> parse tp = Ok (p, length tp).
Proof. intros H. now apply parse_all_term_d, term_d_factor. Qed.

Lemma symbol_plus : symbol "+" = Some PLUSOPERATOR. Proof. reflexivity. Qed.
Lemma symbol_minus : symbol "-" = Some MINUSOPERATOR. Proof. reflexivity. Qed.
Lemma symbol_star : symbol "*" = Some STAROPERATOR. Proof. reflexivity. Qed.
Lemma symbol_slash : symbol "/" = Some SLASHOPERATOR. Proof. reflexivity. Qed.

(** The tokens of two operators between three pieces of text. *)
Lemma tokenize_two_operators (sa sb sc : list ascii) (ta tb tc : list Token)
      (ch1 ch2 : ascii) (t1 t2 : TokenType) :
  symbol ch1 = Some t1 -> symbol ch2 = Some t2 ->
  tokenize sa = Ok ta -> tokenize sb = Ok tb -> tokenize sc = Ok tc ->
  tokenize (sa ++ ch1 :: sb ++ ch2 :: sc)
  = Ok (ta ++ mkToken t1 [ch1] :: tb ++ mkToken t2 [ch2] :: tc).
Proof.
  intros H1 H2 Ha Hb Hc.
  apply (tokenize_around_symbol sa _ ch1 t1 ta _ H1 Ha).
  exact (tokenize_around_symbol sb sc ch2 t2 tb tc H2 Hb Hc).
Qed.

(** ** Numbers *)

Lemma stoi_digit (c : ascii) (s : list ascii) :
  isdigit c = true -> stoi (c :: s) = stoi_number false (c :: s).
Proof.
  intros Hc. unfold stoi. cbn [skip_spaces].
  rewrite (isdigit_not_space c Hc).
  destruct c as [[] [] [] [] [] [] [] []]; try discriminate Hc; reflexivity.
Qed.

Lemma parse_integer (s : list ascii) :
  parse [mkToken INTEGER s] = value <- stoi s ;; Ok (LiteralExpression value, 1).
Proof.
  destruct (stoi s) as [value | ex | ] eqn:Hstoi; cbn [bind].
  - apply (parse_operand [mkToken INTEGER s]), operand_primary_d.
    now apply PD_integer.
  - apply parse_Throw. unfold parsePrimary.
    run (next_Some [mkToken INTEGER s] 0 _ eq_refl).
    cbn. unfold bindP, lift. cbn. now rewrite Hstoi.
  - now apply stoi_not_OutOfFuel in Hstoi.
Qed.

Lemma string_of_uint_digits (d : Decimal.uint) :
  forallb isdigit (chars (DecimalString.NilEmpty.string_of_uint d)) = true.
Proof. induction d; simpl; auto. Qed.

Lemma strtol_digits_uint (d : Decimal.uint) (acc : Z) :
  strtol_digits acc (chars (DecimalString.NilEmpty.string_of_uint d))
  = (acc * 10 ^ Z.of_N (DecimalPos.Unsigned.usize d)
     + Z.of_N (DecimalPos.Unsigned.of_lu (Decimal.rev d)))%Z.
Proof.
  revert acc.
  induction d; intros acc;
    [ simpl; lia | .. ];
    unfold Decimal.rev; cbn [Decimal.revapp];
    rewrite DecimalPos.Unsigned.of_lu_revapp;
    cbn [DecimalPos.Unsigned.usize DecimalPos.Unsigned.of_lu];
    rewrite N2Z.inj_add, N2Z.inj_mul, N2Z.inj_pow, N2Z.inj_succ;
    rewrite Z.pow_succ_r by apply N2Z.is_nonneg;
    cbn [DecimalString.NilEmpty.string_of_uint chars list_ascii_of_string
         strtol_digits];
    unfold chars in IHd;
    (match goal with
     | |- context [isdigit ?c] => change (isdigit c) with true
     end);
    cbv iota; rewrite IHd;
    (match goal with
     | |- context [digit_value ?c] =>
         let v := eval vm_compute in (digit_value c) in
         change (digit_value c) with v
     end);
    simpl Z.of_N; ring.
Qed.

Lemma strtol_digits_str (n : N) : strtol_digits 0 (str n) = Z.of_N n.
Proof.
  unfold str. fold (chars (DecimalString.NilEmpty.string_of_uint (N.to_uint n))).
  rewrite strtol_digits_uint. simpl.
  rewrite <- DecimalPos.Unsigned.of_uint_alt.
  change (Pos.of_uint (N.to_uint n)) with (N.of_uint (N.to_uint n)).
  now rewrite DecimalN.Unsigned.of_to.
Qed.

Lemma str_digits (n : N) : str n <> [] /\ forallb isdigit (str n) = true.
Proof.
  split; [ | apply string_of_uint_digits].
  unfold str. destruct n as [ | p]; [discriminate | ]. simpl.
  pose proof (DecimalPos.Unsigned.to_uint_nonnil p) as Hnil.
  destruct (Pos.to_uint p); [congruence | discriminate ..].
Qed.

Lemma stoi_str (n : N) :
  stoi (str n) =
  if (Z.of_N n <=? INT_MAX)%Z then Ok (Z.of_N n)
  else Throw (StoiError out_of_range).
Proof.
  destruct (str_digits n) as [Hne Hall].
  pose proof (strtol_digits_str n) as Hval.
  destruct (str n) as [ | c s]; [congruence | ].
  simpl in Hall. apply andb_true_iff in Hall as [Hc _].
  rewrite (stoi_digit c s Hc). unfold stoi_number. rewrite Hc. cbv zeta.
  rewrite Hval. unfold in_int.
  replace (INT_MIN <=? Z.of_N n)%Z with true; [reflexivity | ].
  symmetry. apply Z.leb_le. unfold INT_MIN. lia.
Qed.

Lemma nzhead_not_D0 (d d' : Decimal.uint) :
  Decimal.nzhead d <> Decimal.D0 d'.
Proof. induction d; simpl; try discriminate. exact IHd. Qed.

(** [str n] is ["0"] or starts with another digit than 0. *)
Lemma str_no_leading_zero (n : N) :
  str n = chars "0" \/ exists c s, str n = c :: s /\ c <> "0"%char.
Proof.
  destruct n as [ | p]; [now left | right].
  unfold str. simpl N.to_uint.
  pose proof (DecimalPos.Unsigned.to_of (Pos.to_uint p)) as Hnorm.
  rewrite DecimalPos.Unsigned.of_to in Hnorm. simpl in Hnorm.
  pose proof (DecimalPos.Unsigned.to_uint_nonzero p) as Hnz.
  pose proof (nzhead_not_D0 (Pos.to_uint p)) as Hhead.
  unfold Decimal.unorm in Hnorm.
  destruct (Decimal.nzhead (Pos.to_uint p)) as [ | d | d | d | d | d | d | d | d | d | d ];
    try (rewrite Hnorm; simpl; eexists; eexists; split; [reflexivity | discriminate]).
  - now rewrite Hnorm in Hnz.
  - now destruct (Hhead d).
Qed.

(** ** White space *)

Lemma ends_digit_spaces (w : list ascii) :
  forallb isspace w = true -> ends_digit w = false.
Proof.
  induction w as [ | c w IH]; [reflexivity | ].
  intros H. simpl in H. apply andb_true_iff in H as [Hc Hw].
  destruct w as [ | d w]; [now apply isspace_not_digit | ].
  rewrite ends_digit_cons by discriminate. exact (IH Hw).
Qed.

Lemma starts_digit_spaces (w s : list ascii) :
  w <> [] -> forallb isspace w = true -> starts_digit (w ++ s) = false.
Proof.
  destruct w as [ | c w]; [congruence | ].
  intros _ H. simpl in H. apply andb_true_iff in H as [Hc _].
  now apply isspace_not_digit.
Qed.

(** White space added where it does not cut a number changes no token. *)
Lemma tokenize_insert_spaces (s1 w s2 : list ascii) :
  forallb isspace w = true -> glued s1 s2 = false ->
  tokenize (s1 ++ w ++ s2) = tokenize (s1 ++ s2).
Proof.
  intros Hw Hglue. destruct w as [ | c w]; [reflexivity | ].
  unfold tokenize.
  rewrite tokenize_from_app.
  2:{ unfold glued. rewrite starts_digit_spaces by (discriminate || exact Hw).
      apply andb_false_r. }
  rewrite (tokenize_from_app s1 s2) by exact Hglue.
  apply bind_ext. intros tokens.
  rewrite tokenize_from_app.
  2:{ unfold glued. now rewrite ends_digit_spaces. }
  now rewrite tokenize_from_spaces.
Qed.

Lemma same_up_to_spaces_tokenize (s s' : list ascii) :
  same_up_to_spaces s s' -> tokenize s = tokenize s'.
Proof.
  induction 1 as [s1 w s2 Hw Hglue | s | s s' _ IH | s s' s'' _ IH1 _ IH2].
  - symmetry. now apply tokenize_insert_spaces.
  - reflexivity.
  - now symmetry.
  - now rewrite IH1.
Qed.

Lemma evaluate_tokenize (s s' : list ascii) :
  tokenize s = tokenize s' -> evaluate s = evaluate s'.
Proof. intros H. unfold evaluate. now rewrite H. Qed.

(** * The claims *)

(** C1, counterexample.  On ["1 2"] the evaluation returns 1 and the parser
    has read one token of two: [Parser::parse] returns what
    [parseExpression] returns and never compares [idx] with
    [tokens.size()]. *)
Lemma trailing_tokens_ignored :
  evaluate (chars "1 2") = Ok 1%Z /\ ~ reads_all_tokens (chars "1 2").
Proof.
  split; [reflexivity | ].
  intros H.
  specialize (H _ _ _ _ eq_refl eq_refl eq_refl). discriminate.
Qed.

(** C1, as amended.  [Parser::parse] ends with a tree or with an exception.
    When it returns a tree, the parser has read a prefix of the tokens and
    stands at the end of the vector or in front of a token that is not an
    operator; what follows is left unread and plays no part: the tree is the
    one of the prefix alone, read to its end. *)
Theorem parse_reads_a_prefix (tokens : list Token) :
  parse tokens <> OutOfFuel
  /\ forall (e : Expression) (idx : nat),
      parse tokens = Ok (e, idx) ->
      (idx <= length tokens)%nat
      /\ match nth_error tokens idx with
         | None => idx = length tokens
         | Some token => isOperator token = false
         end
      /\ parse (firstn idx tokens) = Ok (e, length (firstn idx tokens)).
Proof.
  split; [apply parse_total | ].
  intros e idx H. apply parse_sound in H as (p & Hp & Htok & Hidx & Hstop).
  assert (Hfirst : firstn idx tokens = p).
  { rewrite Htok, Hidx. rewrite firstn_app, Nat.sub_diag, firstn_all. simpl.
    apply List.app_nil_r. }
  pose proof (skipn_nth_error tokens idx) as Hn.
  split; [ | split].
  - rewrite Htok, length_app. lia.
  - destruct (nth_error tokens idx) as [token | ].
    + rewrite Hn in Hstop. simpl in Hstop. now apply negb_true_iff in Hstop.
    + rewrite Hn, List.app_nil_r in Htok. now subst p.
  - rewrite Hfirst. rewrite <- (List.app_nil_r p) at 1.
    now apply parse_complete.
Qed.

Lemma parse_reads_a_prefix_witness :
  parse [mkToken INTEGER (chars "1"); mkToken INTEGER (chars "2")]
  = Ok (LiteralExpression 1, 1)
  /\ nth_error [mkToken INTEGER (chars "1"); mkToken INTEGER (chars "2")] 1
     = Some (mkToken INTEGER (chars "2"))
  /\ parse (firstn 1 [mkToken INTEGER (chars "1"); mkToken INTEGER (chars "2")])
     = Ok (LiteralExpression 1, 1).
Proof.
  split; [reflexivity | ]. split; [reflexivity | ].
  destruct (parse_reads_a_prefix
              [mkToken INTEGER (chars "1"); mkToken INTEGER (chars "2")])
    as [_ H].
  apply (H (LiteralExpression 1) 1). reflexivity.
Defined.

(** C2.  For operands [a], [b] and [c], numbers or groups in parentheses,
    given by their text [sa], [sb], [sc]: the parse of [a+b*c] is the tree
    of [a + (b * c)], and its evaluation is the interpretation of that tree,
    [x + y * z] on the values of the operands when no result leaves [int].
    ["1+2*3"] is 7 and ["(1+2)*3"] is 9. *)
Theorem multiplication_binds_tighter (sa sb sc : list ascii) (ta tb tc : list Token)
        (a b c : Expression) :
  tokenize sa = Ok ta -> operand ta a ->
  tokenize sb = Ok tb -> operand tb b ->
  tokenize sc = Ok tc -> operand tc c ->
  parse (ta ++ plus :: tb ++ star :: tc)
  = Ok (PlusBinaryOp a (StarBinaryOp b c),
        length (ta ++ plus :: tb ++ star :: tc))
  /\ evaluate (sa ++ "+"%char :: sb ++ "*"%char :: sc)
     = interpret (PlusBinaryOp a (StarBinaryOp b c))
  /\ (forall x y z : Z,
         interpret a = Ok x -> interpret b = Ok y -> interpret c = Ok z ->
         in_int (y * z) = true -> in_int (x + y * z) = true ->
         evaluate (sa ++ "+"%char :: sb ++ "*"%char :: sc) = Ok (x + y * z)%Z)
  /\ evaluate (chars "1+2*3") = Ok 7%Z
  /\ evaluate (chars "(1+2)*3") = Ok 9%Z.
Proof.
  intros Hsa Ha Hsb Hb Hsc Hc.
  assert (Hparse : parse (ta ++ plus :: tb ++ star :: tc)
                   = Ok (PlusBinaryOp a (StarBinaryOp b c),
                         length (ta ++ plus :: tb ++ star :: tc))).
  { apply parse_snoc_plus; [now apply parse_operand | ].
    apply operand_primary_d in Hb, Hc.
    now apply (factor_d_snoc tb b star tc c (factor_d_primary _ _ Hb) Hc). }
  assert (Heval : evaluate (sa ++ "+"%char :: sb ++ "*"%char :: sc)
                  = interpret (PlusBinaryOp a (StarBinaryOp b c))).
  { eapply evaluate_parse; [ | exact Hparse].
    exact (tokenize_two_operators sa sb sc ta tb tc _ _ _ _
             symbol_plus symbol_star Hsa Hsb Hsc). }
  split; [exact Hparse | ]. split; [exact Heval | ].
  split; [ | split; reflexivity].
  intros x y z Hx Hy Hz Hyz Hxyz. rewrite Heval. simpl.
  rewrite Hx, Hy, Hz. cbn [bind].
  now rewrite (wrap_int_in_range _ Hyz), (wrap_int_in_range _ Hxyz).
Qed.

Lemma multiplication_binds_tighter_witness :
  evaluate (chars "4" ++ "+"%char :: chars "(1+1)" ++ "*"%char :: chars "5")
  = Ok (4 + 2 * 5)%Z.
Proof.
  destruct (multiplication_binds_tighter (chars "4") (chars "(1+1)") (chars "5")
              [mkToken INTEGER (chars "4")]
              [mkToken LPARENTHESIS (chars "("); mkToken INTEGER (chars "1");
               plus; mkToken INTEGER (chars "1");
               mkToken RPARENTHESIS (chars ")")]
              [mkToken INTEGER (chars "5")]
              (LiteralExpression 4)
              (PlusBinaryOp (LiteralExpression 1) (LiteralExpression 1))
              (LiteralExpression 5))
    as (_ & _ & H & _).
  1-6: reflexivity.
  apply H; reflexivity.
Defined.

(** C3.  For operands [a], [b] and [c] given by their text: the parse of
    [a-b-c] is the tree of [(a - b) - c] and the parse of [a/b/c] the tree
    of [(a / b) / c]; the evaluation is the interpretation of these trees,
    [(x - y) - z] and the quotient of the quotient of [x] by [y], by [z], on
    the values of the operands, when the divisors are not 0 and no result
    leaves [int].  More generally a minus sign and an operand after a
    complete expression subtract from the whole expression.  ["10-2-3"] and
    ["100/10/2"] are 5. *)
Theorem same_level_folds_left (sa sb sc : list ascii) (ta tb tc : list Token)
        (a b c : Expression) :
  tokenize sa = Ok ta -> operand ta a ->
  tokenize sb = Ok tb -> operand tb b ->
  tokenize sc = Ok tc -> operand tc c ->
  parse (ta ++ minus :: tb ++ minus :: tc)
  = Ok (MinusBinaryOp (MinusBinaryOp a b) c,
        length (ta ++ minus :: tb ++ minus :: tc))
  /\ parse (ta ++ slash :: tb ++ slash :: tc)
     = Ok (DivBinaryOp (DivBinaryOp a b) c,
           length (ta ++ slash :: tb ++ slash :: tc))
  /\ evaluate (sa ++ "-"%char :: sb ++ "-"%char :: sc)
     = interpret (MinusBinaryOp (MinusBinaryOp a b) c)
  /\ evaluate (sa ++ "/"%char :: sb ++ "/"%char :: sc)
     = interpret (DivBinaryOp (DivBinaryOp a b) c)
  /\ (forall x y z : Z,
         interpret a = Ok x -> interpret b = Ok y -> interpret c = Ok z ->
         in_int (x - y) = true -> in_int (x - y - z) = true ->
         evaluate (sa ++ "-"%char :: sb ++ "-"%char :: sc) = Ok (x - y - z)%Z)
  /\ (forall x y z : Z,
         interpret a = Ok x -> interpret b = Ok y -> interpret c = Ok z ->
         y <> 0%Z -> z <> 0%Z ->
         in_int (Z.quot x y) = true -> in_int (Z.quot (Z.quot x y) z) = true ->
         evaluate (sa ++ "/"%char :: sb ++ "/"%char :: sc)
         = Ok (Z.quot (Z.quot x y) z))
  /\ (forall tp p,
         parse tp = Ok (p, length tp) ->
         parse (tp ++ minus :: tc)
         = Ok (MinusBinaryOp p c, length (tp ++ minus :: tc)))
  /\ evaluate (chars "10-2-3") = Ok 5%Z
  /\ evaluate (chars "100/10/2") = Ok 5%Z.
Proof.
  intros Hsa Ha Hsb Hb Hsc Hc.
  assert (Hminus : parse (ta ++ minus :: tb ++ minus :: tc)
                   = Ok (MinusBinaryOp (MinusBinaryOp a b) c,
                         length (ta ++ minus :: tb ++ minus :: tc))).
  { change (ta ++ minus :: tb ++ minus :: tc)
      with (ta ++ [minus] ++ tb ++ minus :: tc).
    rewrite !List.app_assoc. apply parse_snoc_minus; [ | exact Hc].
    rewrite <- List.app_assoc. apply parse_snoc_minus; [ | exact Hb].
    now apply parse_operand. }
  assert (Hslash : parse (ta ++ slash :: tb ++ slash :: tc)
                   = Ok (DivBinaryOp (DivBinaryOp a b) c,
                         length (ta ++ slash :: tb ++ slash :: tc))).
  { apply operand_primary_d in Ha, Hb, Hc. apply parse_factor_d.
    change (ta ++ slash :: tb ++ slash :: tc)
      with (ta ++ [slash] ++ tb ++ slash :: tc).
    rewrite !List.app_assoc.
    apply (factor_d_snoc _ (DivBinaryOp a b) slash tc c); [ | exact Hc | reflexivity].
    rewrite <- List.app_assoc.
    apply (factor_d_snoc ta a slash tb b); [ | exact Hb | reflexivity].
    now apply factor_d_primary. }
  assert (Hevminus : evaluate (sa ++ "-"%char :: sb ++ "-"%char :: sc)
                     = interpret (MinusBinaryOp (MinusBinaryOp a b) c)).
  { eapply evaluate_parse; [ | exact Hminus].
    exact (tokenize_two_operators sa sb sc ta tb tc _ _ _ _
             symbol_minus symbol_minus Hsa Hsb Hsc). }
  assert (Hevslash : evaluate (sa ++ "/"%char :: sb ++ "/"%char :: sc)
                     = interpret (DivBinaryOp (DivBinaryOp a b) c)).
  { eapply evaluate_parse; [ | exact Hslash].
    exact (tokenize_two_operators sa sb sc ta tb tc _ _ _ _
             symbol_slash symbol_slash Hsa Hsb Hsc). }
  split; [exact Hminus | ]. split; [exact Hslash | ].
  split; [exact Hevminus | ]. split; [exact Hevslash | ].
  split; [ | split; [ | split; [ | split; reflexivity]]].
  - intros x y z Hx Hy Hz Hxy Hxyz. rewrite Hevminus. simpl.
    rewrite Hx, Hy, Hz. cbn [bind].
    now rewrite (wrap_int_in_range _ Hxy), (wrap_int_in_range _ Hxyz).
  - intros x y z Hx Hy Hz Hy0 Hz0 Hxy Hxyz. rewrite Hevslash. simpl.
    rewrite Hz. cbn [bind]. apply Z.eqb_neq in Hy0, Hz0. rewrite Hz0.
    rewrite Hy. cbn [bind]. rewrite Hy0, Hx. cbn [bind].
    now rewrite (wrap_int_in_range _ Hxy), (wrap_int_in_range _ Hxyz).
  - intros tp p Hp. now apply parse_snoc_minus.
Qed.

Lemma same_level_folds_left_witness :
  evaluate (chars "20" ++ "-"%char :: chars "(1+1)" ++ "-"%char :: chars "5")
  = Ok (20 - 2 - 5)%Z
  /\ evaluate (chars "20" ++ "/"%char :: chars "(1+1)" ++ "/"%char :: chars "5")
     = Ok (Z.quot (Z.quot 20 2) 5).
Proof.
  destruct (same_level_folds_left (chars "20") (chars "(1+1)") (chars "5")
              [mkToken INTEGER (chars "20")]
              [mkToken LPARENTHESIS (chars "("); mkToken INTEGER (chars "1");
               plus; mkToken INTEGER (chars "1");
               mkToken RPARENTHESIS (chars ")")]
              [mkToken INTEGER (chars "5")]
              (LiteralExpression 20)
              (PlusBinaryOp (LiteralExpression 1) (LiteralExpression 1))
              (LiteralExpression 5))
    as (_ & _ & _ & _ & Hm & Hd & _).
  1-6: reflexivity.
  split; [apply Hm; reflexivity | ].
  apply Hd; reflexivity || discriminate.
Defined.

(** C4.  [DivBinaryOp::interpret] evaluates its right operand first: an
    exception of the right operand is the outcome; when the right operand is
    0 the outcome is "Division by zero", whatever the left operand is;
    otherwise the result is the quotient rounded toward zero: what it leaves
    of the dividend is smaller than the divisor and has the sign of the
    dividend.  ["5/0"] throws "Division by zero". *)
Theorem division_checks_divisor (l r : Expression) :
  (forall ex, interpret r = Throw ex -> interpret (DivBinaryOp l r) = Throw ex)
  /\ (interpret r = Ok 0%Z ->
      interpret (DivBinaryOp l r) = Throw (ArithmeticError DivisionByZero))
  /\ (forall n d,
         interpret r = Ok d -> d <> 0%Z -> interpret l = Ok n ->
         in_int (Z.quot n d) = true ->
         interpret (DivBinaryOp l r) = Ok (Z.quot n d)
         /\ (Z.abs (n - d * Z.quot n d) < Z.abs d)%Z
         /\ (0 <= (n - d * Z.quot n d) * n)%Z)
  /\ evaluate (chars "5/0") = Throw (ArithmeticError DivisionByZero)
  /\ evaluate (chars "(0-7)/2") = Ok (-3)%Z
  /\ evaluate (chars "7/(0-2)") = Ok (-3)%Z.
Proof.
  split; [ | split; [ | split; [ | repeat split]]].
  - intros ex Hr. simpl. now rewrite Hr.
  - intros Hr. simpl. now rewrite Hr.
  - intros n d Hr Hd Hl Hfit. split; [ | split].
    + simpl. rewrite Hr. cbn [bind].
      apply Z.eqb_neq in Hd. rewrite Hd, Hl. cbn [bind].
      now rewrite wrap_int_in_range.
    + replace (n - d * Z.quot n d)%Z with (Z.rem n d)
        by (pose proof (Z.quot_rem' n d); lia).
      now apply Z.rem_bound_abs.
    + replace (n - d * Z.quot n d)%Z with (Z.rem n d)
        by (pose proof (Z.quot_rem' n d); lia).
      now apply Z.rem_sign_mul.
Qed.

Lemma division_checks_divisor_witness :
  interpret (LiteralExpression 2) = Ok 2%Z /\ 2%Z <> 0%Z
  /\ interpret (LiteralExpression (-7)) = Ok (-7)%Z
  /\ in_int (Z.quot (-7) 2) = true
  /\ interpret (DivBinaryOp (LiteralExpression (-7)) (LiteralExpression 2))
     = Ok (Z.quot (-7) 2).
Proof.
  split; [reflexivity | ]. split; [discriminate | ].
  split; [reflexivity | ]. split; [reflexivity | ].
  destruct (division_checks_divisor (LiteralExpression (-7)) (LiteralExpression 2))
    as (_ & _ & H & _).
  apply (H (-7)%Z 2%Z); [reflexivity | discriminate | reflexivity | reflexivity].
Defined.

(** C5, counterexample.  2147483648 is a non-negative integer written
    without leading zeros, and [std::stoi] throws [out_of_range] on it: the
    literal of [LiteralExpression] is an [int]. *)
Lemma decimal_out_of_range :
  evaluate (str 2147483648) = Throw (StoiError out_of_range)
  /\ ~ (forall n : N, evaluate (str n) = Ok (Z.of_N n)).
Proof.
  split; [reflexivity | ].
  intros H. specialize (H 2147483648%N). discriminate.
Qed.

(** C5, as amended.  [str n], the decimal writing of [n], has no leading
    zero, and its evaluation is [n] for every [n] from 0 to [INT_MAX];
    above [INT_MAX], [std::stoi] throws [out_of_range]. *)
Theorem decimal_round_trip (n : N) :
  evaluate (str n) =
    (if (Z.of_N n <=? INT_MAX)%Z then Ok (Z.of_N n)
     else Throw (StoiError out_of_range))
  /\ (str n = chars "0" \/ exists c s, str n = c :: s /\ c <> "0"%char).
Proof.
  split; [ | apply str_no_leading_zero].
  destruct (str_digits n) as [Hne Hall].
  unfold evaluate. rewrite (tokenize_digits (str n) Hne Hall). cbn [bind].
  rewrite parse_integer, stoi_str.
  now destruct (Z.of_N n <=? INT_MAX)%Z.
Qed.

(** C6.  At the first character of the input that is neither white space,
    a digit, one of + - * / nor a parenthesis, [tokenize] throws "Unknown
    character" with that character, and so does the evaluation.  When there
    is no such character [tokenize] returns a token vector: the texts of the
    tokens, in order, are the input without its white space, and every token
    is a run of digits or one of the six symbols.  On ["3+@2"] the character
    is ['@']. *)
Theorem lexer_alphabet (expr : list ascii) :
  match find rejected expr with
  | Some ch =>
      tokenize expr = Throw (LexError ch) /\ evaluate expr = Throw (LexError ch)
  | None =>
      exists tokens,
        tokenize expr = Ok tokens
        /\ concat (map getValue tokens) = filter not_space expr
        /\ forallb lexeme tokens = true
  end
  /\ evaluate (chars "3+@2") = Throw (LexError "@").
Proof.
  split; [ | reflexivity].
  destruct (find rejected expr) as [ch | ] eqn:Hfind.
  - apply find_first_split in Hfind as (pre & post & -> & Hpre & Hch).
    rewrite forallb_not_rejected in Hpre.
    apply negb_true_iff in Hch.
    pose proof (tokenize_rejected pre post ch Hpre Hch) as Ht.
    split; [exact Ht | ]. unfold evaluate. now rewrite Ht.
  - apply find_none_forallb in Hfind. rewrite forallb_not_rejected in Hfind.
    destruct (tokenize_from_allowed expr [] Hfind) as [tokens Ht].
    exists tokens. split; [exact Ht | ].
    destruct (tokenize_from_text expr [] tokens Ht) as [Htext Hlex].
    split; [exact Htext | now apply Hlex].
Qed.

(** C7.  Two inputs that differ only in white space between tokens have the
    same tokens and the same evaluation; white space leaves the token vector
    as it is, and no token holds a white space character.  ["1 +  2"] and
    ["1+2"] evaluate alike. *)
Theorem whitespace_insignificant (s s' : list ascii) :
  same_up_to_spaces s s' ->
  tokenize s = tokenize s' /\ evaluate s = evaluate s'
  /\ (forall w tokens,
         forallb isspace w = true -> tokenize_from w tokens = Ok tokens)
  /\ (forall tokens,
         tokenize s = Ok tokens ->
         concat (map getValue tokens) = filter not_space s)
  /\ evaluate (chars "1 +  2") = evaluate (chars "1+2").
Proof.
  intros H.
  pose proof (same_up_to_spaces_tokenize s s' H) as Ht.
  split; [exact Ht | ]. split; [now apply evaluate_tokenize | ].
  split; [intros w tokens; apply tokenize_from_spaces | ].
  split; [ | reflexivity].
  intros tokens Htok. now destruct (tokenize_from_text s [] tokens Htok).
Qed.

Lemma whitespace_insignificant_witness :
  same_up_to_spaces (chars "1+2") (chars "1 +  2")
  /\ evaluate (chars "1+2") = evaluate (chars "1 +  2").
Proof.
  assert (H : same_up_to_spaces (chars "1+2") (chars "1 +  2")).
  { apply (sp_trans _ (chars "1 +2")).
    - apply (sp_insert (chars "1") (chars " ") (chars "+2")); reflexivity.
    - apply (sp_insert (chars "1 +") (chars "  ") (chars "2")); reflexivity. }
  split; [exact H | ].
  apply (whitespace_insignificant _ _ H).
Defined.

(** The white space between two numbers is what makes them two: without it
    they are one token.  Such inputs are not [same_up_to_spaces]. *)
Remark spaces_between_numbers :
  ~ same_up_to_spaces (chars "1 2") (chars "12")
  /\ evaluate (chars "1 2") = Ok 1%Z /\ evaluate (chars "12") = Ok 12%Z.
Proof.
  split; [ | split; reflexivity].
  intros H. apply same_up_to_spaces_tokenize in H. discriminate.
Qed.


(** C8.  A token that is neither a number nor a left parenthesis, where
    [parsePrimary] is called, makes it throw "Invalid expression".  The
    places where a primary is required are the ends of the token vectors on
    which the parse throws "Unexpected end of expression", the exception of
    [parsePrimary] when there is no token: the start of the input, after an
    operator, after a left parenthesis.  With such a token at such a place,
    whatever follows, the parse throws "Invalid expression".  ["-5"] and
    ["3*-2"] are such inputs. *)
Theorem primary_required (token : Token) :
  isType token INTEGER = false -> isType token LPARENTHESIS = false ->
  (forall tokens rec idx,
      nth_error tokens idx = Some token ->
      parsePrimary tokens rec idx = Throw (ParseError InvalidPrimary))
  /\ (forall pre r,
         parse pre = Throw (ParseError UnexpectedEnd) ->
         parse (pre ++ token :: r) = Throw (ParseError InvalidPrimary))
  /\ (forall expr pre r,
         tokenize expr = Ok (pre ++ token :: r) ->
         parse pre = Throw (ParseError UnexpectedEnd) ->
         evaluate expr = Throw (ParseError InvalidPrimary))
  /\ evaluate (chars "-5") = Throw (ParseError InvalidPrimary)
  /\ evaluate (chars "3*-2") = Throw (ParseError InvalidPrimary).
Proof.
  intros Hint Hopen.
  assert (Hparse : forall pre r,
             parse pre = Throw (ParseError UnexpectedEnd) ->
             parse (pre ++ token :: r) = Throw (ParseError InvalidPrimary)).
  { intros pre r H. apply (parse_carries pre token r _ _ (or_introl
      (conj eq_refl (conj eq_refl (conj Hint Hopen)))) H). }
  split; [ | split; [exact Hparse | split; [ | split; reflexivity]]].
  - intros tokens rec idx Hnth.
    now apply (parsePrimary_invalid tokens rec idx token).
  - intros expr pre r Htok H. unfold evaluate. rewrite Htok. cbn [bind].
    now rewrite (Hparse pre r H).
Qed.

Lemma primary_required_witness :
  isType minus INTEGER = false /\ isType minus LPARENTHESIS = false
  /\ parse [mkToken INTEGER (chars "3"); star] = Throw (ParseError UnexpectedEnd)
  /\ parse ([mkToken INTEGER (chars "3"); star] ++ minus
            :: [mkToken INTEGER (chars "2")])
     = Throw (ParseError InvalidPrimary).
Proof.
  split; [reflexivity | ]. split; [reflexivity | ]. split; [reflexivity | ].
  destruct (primary_required minus) as (_ & H & _);
    [reflexivity | reflexivity | ].
  apply H. reflexivity.
Defined.

(** C9.  After the left parenthesis and the expression that follows it,
    [parsePrimary] returns that expression when the next token is a right
    parenthesis, and throws "Expected closing parenthesis" when it is another
    token or when there is none.  So does the whole parse on a left
    parenthesis, a complete expression, and then the end of the input or a
    token that neither continues the expression nor closes the group, as on
    ["(1+2"]; and where the parse throws this exception, at any depth, it
    still does with such a token, and anything after it, added to the
    input. *)
Theorem group_must_close (open : Token) :
  isType open LPARENTHESIS = true ->
  (forall tokens rec idx expr idx',
      nth_error tokens idx = Some open ->
      rec (S idx) = Ok (expr, idx') ->
      parsePrimary tokens rec idx =
      match nth_error tokens idx' with
      | Some close =>
          if isType close RPARENTHESIS then Ok (expr, S idx')
          else Throw (ParseError ExpectedCloseParen)
      | None => Throw (ParseError ExpectedCloseParen)
      end)
  /\ (forall p e r,
         parse p = Ok (e, length p) ->
         stops_term r = true ->
         (forall token r', r = token :: r' -> isType token RPARENTHESIS = false) ->
         parse (open :: p ++ r) = Throw (ParseError ExpectedCloseParen))
  /\ (forall pre other r,
         parse pre = Throw (ParseError ExpectedCloseParen) ->
         isOperator other = false -> isType other RPARENTHESIS = false ->
         parse (pre ++ other :: r) = Throw (ParseError ExpectedCloseParen))
  /\ evaluate (chars "(1+2") = Throw (ParseError ExpectedCloseParen).
Proof.
  intros Hopen.
  assert (Hint : isType open INTEGER = false).
  { apply isType_true in Hopen. now rewrite (isType_of_getType open _ _ Hopen). }
  split; [ | split; [ | split; [ | reflexivity]]].
  - intros tokens rec idx expr idx' Hnth Hrec.
    now apply (parsePrimary_group tokens rec idx open).
  - intros p e r Hp Hstop Hclose. apply parse_all_term_d in Hp.
    apply parse_Throw.
    remember (open :: p ++ r) as tokens eqn:Htokens.
    assert (Hsk : skipn 1 tokens = p ++ r) by (now subst tokens).
    assert (Hlen : length tokens = S (length p + length r)).
    { subst tokens. simpl. now rewrite length_app. }
    assert (Hrec : parseExpression tokens (length tokens) 1
                   = Ok (e, (1 + length p)%nat)).
    { rewrite Hlen at 1. cbn [parseExpression].
      destruct (complete_all tokens) as (_ & _ & _ & _ & Hterm).
      apply (Hterm p e Hp _ 1%nat r Hsk Hstop). lia. }
    assert (Hnth : nth_error tokens 0 = Some open) by (now subst tokens).
    rewrite (parsePrimary_group tokens _ 0 open e _ Hnth Hint Hopen Hrec).
    apply skipn_app_skipn in Hsk.
    pose proof (skipn_nth_error tokens (1 + length p)) as Hn.
    destruct (nth_error tokens (1 + length p)) as [token | ]; [ | reflexivity].
    rewrite Hsk in Hn. now rewrite (Hclose token _ Hn).
  - intros pre other r H Hop Hrp.
    apply (parse_carries pre other r _ _ (or_intror
      (conj eq_refl (conj eq_refl (conj Hop Hrp)))) H).
Qed.

Lemma group_must_close_witness :
  isType (mkToken LPARENTHESIS (chars "(")) LPARENTHESIS = true
  /\ parse (mkToken LPARENTHESIS (chars "(")
            :: [mkToken INTEGER (chars "1"); plus; mkToken INTEGER (chars "2")]
            ++ [mkToken INTEGER (chars "3")])
     = Throw (ParseError ExpectedCloseParen).
Proof.
  split; [reflexivity | ].
  destruct (group_must_close (mkToken LPARENTHESIS (chars "(")))
    as (_ & H & _); [reflexivity | ].
  apply (H _ (PlusBinaryOp (LiteralExpression 1) (LiteralExpression 2)));
    [reflexivity | reflexivity | ].
  intros token r' [= <- <-]. reflexivity.
Defined.

(** C10.  On white space only, and on the empty input, the lexer returns an
    empty token vector and the first [next] of the parser finds nothing:
    "Unexpected end of expression". *)
Theorem blank_input (expr : list ascii) :
  forallb isspace expr = true ->
  tokenize expr = Ok [] /\ evaluate expr = Throw (ParseError UnexpectedEnd).
Proof.
  intros H. assert (Ht : tokenize expr = Ok []).
  { now apply tokenize_from_spaces. }
  split; [exact Ht | ]. unfold evaluate. now rewrite Ht.
Qed.

Lemma blank_input_witness :
  forallb isspace (chars "   ") = true
  /\ tokenize (chars "   ") = Ok []
  /\ evaluate (chars "   ") = Throw (ParseError UnexpectedEnd).
Proof.
  split; [reflexivity | ]. apply (blank_input (chars "   ")). reflexivity.
Defined.
